(** * AXIS VFS (axis2): mount table, path resolution and namespace facade

    A shallow embedding of the Go package [axis2] (path.go, errors.go and the
    file system source) together with the properties of its mount resolution
    engine.  Go slices are lists, the [*source] pointers shared by the read
    and the write half of a [FileSystem] are addresses into an explicit
    store, a nil interface value is [None], and an index out of range is the
    outcome [Panics]. *)

From Stdlib Require Import ZArith Ascii String.
From Stdlib.Strings Require Import Byte.
From stdpp Require Import base option list strings gmap.

Set Warnings "-register-all,-clear-no-such-hyp".

Open Scope Z_scope.
Open Scope string_scope.
Open Scope list_scope.

(** ** Errors (errors.go) *)

Inductive ErrTyp : Type :=
| ErrNotFound
| ErrReadOnly
| ErrBadAction
| ErrBadPath
| ErrRaw.

(** The struct [Error], over the type of the error it may wrap. *)
Record ErrorOf (E : Type) : Type := mkError {
  Path : string;
  Typ : ErrTyp;
  Err : option E
}.
Arguments mkError {E} _ _ _.
Arguments Path {E} _.
Arguments Typ {E} _.
Arguments Err {E} _.

(** Non-nil values of the Go interface [error] that the package tells apart:
    its own [*Error], [*os.PathError], the sentinel [os.ErrNotExist] and any
    other error (known by its message). *)
Inductive error : Type :=
| AxisError (e : ErrorOf error)
| PathError (op ospath : string) (inner : error)
| ErrNotExist
| errorString (msg : string).

Definition Error : Type := ErrorOf error.

Definition NewError (typ : ErrTyp) : error :=
  AxisError (mkError "" typ None).

Definition wrapError (err : option error) (path : string) : option Error :=
  match err with
  | None => None
  | Some (AxisError e) => Some (mkError path (Typ e) (Err e))
  | Some (PathError _ _ ErrNotExist) => Some (mkError path ErrNotFound None)
  | Some (PathError _ _ inner) => Some (mkError path ErrRaw (Some inner))
  | Some e => Some (mkError path ErrRaw (Some e))
  end.

(** ** Paths (path.go) *)

Definition slash : ascii := "/"%char.

(** The characters of the literal passed to [strings.ContainsAny] in
    [validatePath]: < > ? * | : double quote, backslash. *)
Definition reserved : list ascii :=
  ["<"; ">"; "?"; "*"; "|"; ":"; ascii_of_nat 34; ascii_of_nat 92]%char.

Fixpoint ContainsAny (s : string) (chars : list ascii) : bool :=
  match s with
  | EmptyString => false
  | String c s' =>
      if bool_decide (c ∈ chars) then true else ContainsAny s' chars
  end.

(** [strings.Split(s, "/")]. *)
Fixpoint Split (s : string) : list string :=
  match s with
  | EmptyString => [EmptyString]
  | String c s' =>
      if bool_decide (c = slash) then EmptyString :: Split s'
      else match Split s' with
           | h :: t => String c h :: t
           | [] => [String c EmptyString]
           end
  end.

(** [strings.LastIndex(s, "/")], counting from [i]; -1 when there is none. *)
Fixpoint LastIndexFrom (i : Z) (s : string) : Z :=
  match s with
  | EmptyString => -1
  | String c s' =>
      let j := LastIndexFrom (i + 1) s' in
      if bool_decide (j = -1)
      then (if bool_decide (c = slash) then i else -1)
      else j
  end.

Definition LastIndex (s : string) : Z := LastIndexFrom 0 s.

Definition trimLastPath (path : string) : string * string :=
  let i := LastIndex path in
  if bool_decide (i = -1) then ("", path)
  else (substring 0 (Z.to_nat i) path,
        substring (Z.to_nat (i + 1)) (String.length path - Z.to_nat (i + 1)) path).

(** The in-place deletion loop shared by [validatePath] and [unmount]:
<<
    for i := 0; i < len(xs); {
        if !kill(xs[i]) { i++; continue }
        copy(xs[i:], xs[i+1:]); xs = xs[:len(xs)-1]
    }
>>
    Every turn either advances [i] or shortens [xs], so [length xs - i]
    turns are enough. *)
Section Compaction.
Context {A : Type} (kill : A → bool).

Fixpoint compact_from (fuel i : nat) (xs : list A) : list A :=
  match fuel with
  | O => xs
  | S fuel' =>
      match xs !! i with
      | None => xs
      | Some x =>
          if kill x then compact_from fuel' i (delete i xs)
          else compact_from fuel' (S i) xs
      end
  end.

Definition compact (xs : list A) : list A :=
  compact_from (length xs) 0 xs.

(** What the loop keeps. *)
Definition kept (x : A) : Prop := kill x = false.

#[global] Instance kept_dec (x : A) : Decision (kept x) :=
  decide (kill x = false).
End Compaction.

Definition validatePath (path : string) : option (list string) :=
  if bool_decide (path = "") then Some []
  else if ContainsAny path reserved then None
  else
    let dirs := Split path in
    if existsb (λ dir, bool_decide (dir = ".." ∨ dir = ".")) dirs then None
    else Some (compact (λ dir, bool_decide (dir = "")) dirs).

Example validatePath_doc :
  validatePath "/test///path//to/dir/" = Some ["test"; "path"; "to"; "dir"]
  ∧ validatePath "test/path/to/dir" = Some ["test"; "path"; "to"; "dir"]
  ∧ validatePath "a/../b" = None
  ∧ validatePath "a:b" = None
  ∧ validatePath "/" = Some []
  ∧ trimLastPath "a/b" = ("a", "b")
  ∧ trimLastPath "a/b/" = ("a/b", "")
  ∧ trimLastPath "b" = ("", "b").
Proof. repeat split; vm_compute; reflexivity. Qed.

(** ** Data sources (the interfaces File and Dir) *)

(** Flags for [Dir.Child]. *)
Definition CreateNone : Z := 0.
Definition CreateDir : Z := 1.
Definition CreateFile : Z := 2.

(** An opened stream, seen through the one call the package makes on it:
    [ioutil.ReadAll] on a reader, [Write(content)] on a writer. *)
Record ReadCloser : Type := { rc_ReadAll : list byte * option error }.
Record WriteCloser : Type := { wc_Write : list byte → Z * option error }.

Record File : Type := {
  File_Read : option ReadCloser * option error;
  File_Write : option WriteCloser * option error;
  File_Append : option WriteCloser * option error;
  File_Size : Z
}.

Record Dir (D : Type) : Type := {
  Dir_Child : string → Z → option D;
  Dir_Delete : string → option error;
  Dir_List : list string
}.
Arguments Dir_Child {D} _ _ _.
Arguments Dir_Delete {D} _ _.
Arguments Dir_List {D} _.

(** A non-nil [DataSource]: a value with the results of the two type
    assertions [ds.(File)] and [ds.(Dir)]. *)
Inductive DataSource : Type :=
| Item (file : option File) (dir : option (Dir DataSource)).

Definition asFile (ds : DataSource) : option File :=
  match ds with Item f _ => f end.
Definition asDir (ds : DataSource) : option (Dir DataSource) :=
  match ds with Item _ d => d end.

(** ** The mount table *)

Record source : Type := { mp : list string; ds : DataSource }.

(** [fs_r] and [fs_w] are the fields [r] and [w]: slices of pointers.  A
    pointer is an index into [store], which holds every [source] struct the
    file system allocated, so that the two halves share their bindings. *)
Record FileSystem : Type := {
  store : list source;
  fs_r : list nat;
  fs_w : list nat
}.

(** The zero value. *)
Definition zeroFS : FileSystem := {| store := []; fs_r := []; fs_w := [] |}.

Definition half (fs : FileSystem) (r : bool) : list nat :=
  if r then fs_r fs else fs_w fs.

(** The bindings a [range] over one half visits, in order. *)
Definition view (fs : FileSystem) (r : bool) : list source :=
  omap (λ p, store fs !! p) (half fs r).

Definition mountable (ds : DataSource) : bool :=
  bool_decide (is_Some (asFile ds)) || bool_decide (is_Some (asDir ds)).

Definition Mount (fs : FileSystem) (path : string) (ds : DataSource) (rw : bool)
  : FileSystem * option Error :=
  match validatePath path with
  | None => (fs, Some (mkError path ErrBadPath None))
  | Some dirs =>
      if negb (mountable ds) then (fs, Some (mkError path ErrBadAction None))
      else
        let src := length (store fs) in
        ({| store := store fs ++ [{| mp := dirs; ds := ds |}];
            fs_r := fs_r fs ++ [src];
            fs_w := if rw then fs_w fs ++ [src] else fs_w fs |}, None)
  end.

(** [for k := range dirs { if dirs[k] != mp[k] { ... } }] *)
Fixpoint sameSegments (dirs mp : list string) : bool :=
  match dirs with
  | [] => true
  | d :: dirs' =>
      match mp with
      | [] => false
      | m :: mp' => bool_decide (d = m) && sameSegments dirs' mp'
      end
  end.

(** The test at the head of the loops of [unmount] and [remount]. *)
Definition matchesMP (dirs mp : list string) : bool :=
  bool_decide (length dirs = length mp) && sameSegments dirs mp.

Definition killed (st : list source) (dirs : list string) (p : nat) : bool :=
  match st !! p with
  | Some src => matchesMP dirs (mp src)
  | None => false
  end.

Definition unmount (st : list source) (dirs : list string) (sources : list nat)
  : list nat :=
  compact (killed st dirs) sources.

Definition Unmount (fs : FileSystem) (path : string) (r : bool)
  : FileSystem * option Error :=
  match validatePath path with
  | None => (fs, Some (mkError path ErrBadPath None))
  | Some dirs =>
      ({| store := store fs;
          fs_r := if r then unmount (store fs) dirs (fs_r fs) else fs_r fs;
          fs_w := unmount (store fs) dirs (fs_w fs) |}, None)
  end.

(** [remount] writes through the pointer: the store changes, the slice does
    not. *)
Fixpoint remount (dirs : list string) (new : DataSource) (st : list source)
    (sources : list nat) : list source * option DataSource :=
  match sources with
  | [] => (st, None)
  | p :: rest =>
      match st !! p with
      | Some src =>
          if matchesMP dirs (mp src)
          then (<[p := {| mp := mp src; ds := new |}]> st, Some (ds src))
          else remount dirs new st rest
      | None => remount dirs new st rest
      end
  end.

Definition SwapMount (fs : FileSystem) (path : string) (new : DataSource)
    (rw : bool) : FileSystem * option DataSource :=
  match validatePath path with
  | None => (fs, None)
  | Some dirs =>
      if negb (mountable new) then (fs, None)
      else
        let '(st1, rtn) := remount dirs new (store fs) (fs_r fs) in
        let st2 := if rw then (remount dirs new st1 (fs_w fs)).1 else st1 in
        ({| store := st2; fs_r := fs_r fs; fs_w := fs_w fs |}, rtn)
  end.

(** The body shared by the loops of [mountSubset] and [isMP]: the segment of
    [mp] that follows [dirs], when [mp] is longer than [dirs] and starts with
    it. *)
Definition nextSegment (dirs mp : list string) : option string :=
  if bool_decide (length mp ≤ length dirs)%nat then None
  else if sameSegments dirs mp then mp !! length dirs
  else None.

Fixpoint mountSubset_loop (dirs : list string) (sources : list source)
    (have : gset string) (rtn : list string) : list string :=
  match sources with
  | [] => rtn
  | src :: rest =>
      match nextSegment dirs (mp src) with
      | None => mountSubset_loop dirs rest have rtn
      | Some m =>
          if bool_decide (m ∈ have) then mountSubset_loop dirs rest have rtn
          else mountSubset_loop dirs rest ({[m]} ∪ have) (rtn ++ [m])
      end
  end.

Definition mountSubset (fs : FileSystem) (path : string) (r : bool)
  : list string :=
  match validatePath path with
  | None => []
  | Some dirs => mountSubset_loop dirs (view fs r) ∅ []
  end.

Fixpoint isMP_loop (dirs : list string) (sources : list source) : bool :=
  match sources with
  | [] => false
  | src :: rest =>
      match nextSegment dirs (mp src) with
      | Some _ => true
      | None => isMP_loop dirs rest
      end
  end.

Definition isMP (fs : FileSystem) (path : string) (r : bool) : bool :=
  match validatePath path with
  | None => false
  | Some dirs => isMP_loop dirs (view fs r)
  end.

(** ** The resolution engine *)

(** First inner loop of [GetDSsAt]: every segment of the mount point must be
    matched by the path; what is left of the path ([dirs[i:]]) is returned. *)
Fixpoint underMP (mp dirs : list string) : option (list string) :=
  match mp with
  | [] => Some dirs
  | m :: mp' =>
      match dirs with
      | [] => None
      | d :: dirs' => if bool_decide (m ≠ d) then None else underMP mp' dirs'
      end
  end.

Definition createHint (create last : bool) : Z :=
  if create && last then CreateFile
  else if create then CreateDir
  else CreateNone.

(** Second inner loop: walk the rest of the path down from the mounted
    item.  [i == len(dirs)-1] holds when one segment remains. *)
Fixpoint walk (create : bool) (cur : DataSource) (rest : list string)
    {struct rest} : option DataSource :=
  match rest with
  | [] => Some cur
  | d :: rest' =>
      match asDir cur with
      | None => None
      | Some pdir =>
          match Dir_Child pdir d (createHint create (bool_decide (rest' = []))) with
          | None => None
          | Some child => walk create child rest'
          end
      end
  end.

(** One turn of the loop over the bindings. *)
Definition resolve (create : bool) (dirs : list string) (src : source)
  : option DataSource :=
  match underMP (mp src) dirs with
  | None => None
  | Some rest => walk create (ds src) rest
  end.

Fixpoint GetDSsAt_loop (create : bool) (dirs : list string)
    (sources : list source) (dss : list DataSource) : list DataSource :=
  match sources with
  | [] => dss
  | src :: rest =>
      match resolve create dirs src with
      | None => GetDSsAt_loop create dirs rest dss
      | Some item => GetDSsAt_loop create dirs rest (dss ++ [item])
      end
  end.

(** The result pair of Go: the slice ([[]] for nil) and the error. *)
Definition GetDSsAt (fs : FileSystem) (path : string) (create r : bool)
  : list DataSource * option Error :=
  match validatePath path with
  | None => ([], Some (mkError path ErrBadPath None))
  | Some dirs =>
      let dss := GetDSsAt_loop create dirs (view fs r) [] in
      if bool_decide (dss ≠ []) then (dss, None)
      else if isMP fs path r then ([], Some (mkError path ErrBadAction None))
      else ([], Some (mkError path ErrNotFound None))
  end.

(** A call either returns or panics (index out of range, nil dereference). *)
Inductive outcome (A : Type) : Type :=
| Returns (a : A)
| Panics.
Arguments Returns {A} _.
Arguments Panics {A}.

Definition GetDSAt (fs : FileSystem) (path : string) (create r : bool)
  : outcome (option DataSource * option Error) :=
  let '(dss, err) := GetDSsAt fs path create r in
  match err with
  | Some e => Returns (None, Some e)
  | None =>
      match dss !! 0%nat with
      | Some first => Returns (Some first, None)
      | None => Panics
      end
  end.

(** ** The namespace facade *)

Definition Exists (fs : FileSystem) (path : string) : outcome bool :=
  match GetDSAt fs path false true with
  | Panics => Panics
  | Returns (_, Some _) => Returns (isMP fs path true)
  | Returns (_, None) => Returns true
  end.

Definition IsDir (fs : FileSystem) (path : string) : outcome bool :=
  match GetDSAt fs path false true with
  | Panics => Panics
  | Returns (_, Some _) => Returns (isMP fs path true)
  | Returns (item, None) => Returns (bool_decide (is_Some (item ≫= asDir)))
  end.

Definition IsMP (fs : FileSystem) (path : string) : bool := isMP fs path true.

Definition Size (fs : FileSystem) (path : string) : outcome Z :=
  match GetDSAt fs path false true with
  | Panics => Panics
  | Returns (_, Some _) => Returns (-1)
  | Returns (item, None) =>
      match item ≫= asFile with
      | None => Returns (-1)
      | Some f => Returns (File_Size f)
      end
  end.

(** The calls a facade operation makes that change a backend. *)
Inductive call : Type :=
| CallDelete (d : Dir DataSource) (id : string).

Fixpoint Delete_loop (path last : string) (dss : list DataSource)
  : list call * option Error :=
  match dss with
  | [] => ([], Some (mkError path ErrNotFound None))
  | item :: rest =>
      match asDir item with
      | Some d =>
          if bool_decide (is_Some (Dir_Child d last 0))
          then ([CallDelete d last], wrapError (Dir_Delete d last) path)
          else Delete_loop path last rest
      | None => Delete_loop path last rest
      end
  end.

Definition Delete (fs : FileSystem) (path : string) : list call * option Error :=
  let '(npath, last) := trimLastPath path in
  let '(dss, err) := GetDSsAt fs npath false false in
  match err with
  | Some e => ([], Some e)
  | None => Delete_loop path last dss
  end.

(** The [have]/[rtn] pair threaded through the enumeration loops. *)
Definition seen : Type := gset string * list string.

Fixpoint List_items (items : list string) (acc : seen) : seen :=
  match items with
  | [] => acc
  | item :: rest =>
      if bool_decide (item ∉ acc.1)
      then List_items rest ({[item]} ∪ acc.1, acc.2 ++ [item])
      else List_items rest acc
  end.

Fixpoint List_loop (dss : list DataSource) (acc : seen) : seen :=
  match dss with
  | [] => acc
  | item :: rest =>
      match asDir item with
      | Some d => List_loop rest (List_items (Dir_List d) acc)
      | None => List_loop rest acc
      end
  end.

Definition List (fs : FileSystem) (path : string) : list string :=
  let '(dss, err) := GetDSsAt fs path false true in
  match err with
  | Some _ => mountSubset fs path true
  | None => (List_loop dss (∅, [])).2 ++ mountSubset fs path true
  end.

(** The inner loop of [ListDirs] and [ListFiles]; [wanted] is the type
    assertion made on the child ([cds.(Dir)] or [cds.(File)]), which fails on
    a nil child. *)
Fixpoint probe_items (wanted : DataSource → bool) (d : Dir DataSource)
    (children : list string) (acc : seen) : seen :=
  match children with
  | [] => acc
  | child :: rest =>
      if bool_decide (child ∉ acc.1)
      then
        let have := {[child]} ∪ acc.1 in
        match Dir_Child d child 0 with
        | Some cds =>
            if wanted cds then probe_items wanted d rest (have, acc.2 ++ [child])
            else probe_items wanted d rest (have, acc.2)
        | None => probe_items wanted d rest (have, acc.2)
        end
      else probe_items wanted d rest acc
  end.

Definition isDirItem (item : DataSource) : bool := bool_decide (is_Some (asDir item)).
Definition isFileItem (item : DataSource) : bool := bool_decide (is_Some (asFile item)).

Fixpoint ListDirs_loop (dss : list DataSource) (acc : seen) : seen :=
  match dss with
  | [] => acc
  | item :: rest =>
      match asDir item with
      | None => ListDirs_loop rest acc
      | Some d => ListDirs_loop rest (probe_items isDirItem d (Dir_List d) acc)
      end
  end.

Definition ListDirs (fs : FileSystem) (path : string) : list string :=
  let '(dss, err) := GetDSsAt fs path false true in
  match err with
  | Some _ => mountSubset fs path true
  | None => (ListDirs_loop dss (∅, [])).2 ++ mountSubset fs path true
  end.

(** In [ListFiles] a candidate that is not a Dir ends the whole call with
    [return nil]. *)
Fixpoint ListFiles_loop (dss : list DataSource) (acc : seen) : list string :=
  match dss with
  | [] => acc.2
  | item :: rest =>
      match asDir item with
      | None => []
      | Some d => ListFiles_loop rest (probe_items isFileItem d (Dir_List d) acc)
      end
  end.

Definition ListFiles (fs : FileSystem) (path : string) : list string :=
  let '(dss, err) := GetDSsAt fs path false true in
  match err with
  | Some _ => []
  | None => ListFiles_loop dss (∅, [])
  end.

Definition Read (fs : FileSystem) (path : string)
  : outcome (option ReadCloser * option Error) :=
  match GetDSAt fs path false true with
  | Panics => Panics
  | Returns (_, Some e) => Returns (None, Some e)
  | Returns (item, None) =>
      match item ≫= asFile with
      | None => Returns (None, Some (mkError path ErrBadAction None))
      | Some f => let '(rc, err) := File_Read f in Returns (rc, wrapError err path)
      end
  end.

Definition ReadAll (fs : FileSystem) (path : string)
  : outcome (list byte * option Error) :=
  match Read fs path with
  | Panics => Panics
  | Returns (_, Some e) => Returns ([], Some e)
  | Returns (None, None) => Panics
  | Returns (Some reader, None) =>
      let '(content, err) := rc_ReadAll reader in
      Returns (content, wrapError err path)
  end.

(** [Write] and [Append] differ in the method they call on the File. *)
Definition openForWriting (open : File → option WriteCloser * option error)
    (fs : FileSystem) (path : string)
  : outcome (option WriteCloser * option Error) :=
  match GetDSAt fs path true false with
  | Panics => Panics
  | Returns (_, Some e) => Returns (None, Some e)
  | Returns (item, None) =>
      match item ≫= asFile with
      | None => Returns (None, Some (mkError path ErrBadAction None))
      | Some f => let '(wc, err) := open f in Returns (wc, wrapError err path)
      end
  end.

Definition Write := openForWriting File_Write.
Definition Append := openForWriting File_Append.

Definition WriteAll (fs : FileSystem) (path : string) (content : list byte)
  : outcome (option Error) :=
  match Write fs path with
  | Panics => Panics
  | Returns (_, Some e) => Returns (Some e)
  | Returns (None, None) => Panics
  | Returns (Some writer, None) => Returns (wrapError (wc_Write writer content).2 path)
  end.

(** * Vocabulary of the properties *)

(** [dirs] is a strict prefix of the mount point [mp]. *)
Definition strictPrefix (dirs mp : list string) : Prop :=
  ∃ m rest, mp = dirs ++ m :: rest.

(** [item] is a Dir that has a child called [last]. *)
Definition hasChild (last : string) (item : DataSource) : Prop :=
  ∃ d, asDir item = Some d ∧ is_Some (Dir_Child d last 0).

(** The names of a list, each once, at the place of its first occurrence. *)
Fixpoint firsts (l : list string) : list string :=
  match l with
  | [] => []
  | x :: l' => x :: filter (λ y, y ≠ x) (firsts l')
  end.

(** The names the Dir candidates list, candidate after candidate. *)
Definition childNames (dss : list DataSource) : list string :=
  mjoin (omap (λ item, Dir_List <$> asDir item) dss).

(** The next segments of the mount points strictly below [dirs]. *)
Definition mountNames (dirs : list string) (sources : list source) : list string :=
  omap (λ src, nextSegment dirs (mp src)) sources.

(** Two errors that agree on everything but the path they carry. *)
Definition sameError (e1 e2 : option Error) : Prop :=
  match e1, e2 with
  | None, None => True
  | Some a, Some b => Typ a = Typ b ∧ Err a = Err b
  | _, _ => False
  end.

Definition sameOutcome {A : Type} (o1 o2 : outcome (A * option Error)) : Prop :=
  match o1, o2 with
  | Panics, Panics => True
  | Returns (a1, e1), Returns (a2, e2) => a1 = a2 ∧ sameError e1 e2
  | _, _ => False
  end.

(** The states a client can build: any sequence of calls of Mount, Unmount
    and SwapMount from the zero value. *)
Inductive step : FileSystem → FileSystem → Prop :=
| step_Mount fs path item rw : step fs (Mount fs path item rw).1
| step_Unmount fs path r : step fs (Unmount fs path r).1
| step_SwapMount fs path item rw : step fs (SwapMount fs path item rw).1.

Inductive reachable : FileSystem → Prop :=
| reachable_zero : reachable zeroFS
| reachable_step fs fs' : reachable fs → step fs fs' → reachable fs'.

(** Every pointer of the write half is in the read half. *)
Definition halves_ok (fs : FileSystem) : Prop :=
  ∀ p, p ∈ fs_w fs → p ∈ fs_r fs.

(** * The zip data source (sources/zip)

    The archive is seen through what [mkTree] reads of a [zip.Reader]: the
    list [z.File], and of each file its name, whether
    [file.FileInfo().IsDir()] holds, its uncompressed size and what
    [file.Open()] returns. *)

Record zipFile : Type := {
  Name : string;
  IsDir_ : bool;
  UncompressedSize64 : Z;
  Open : option ReadCloser * option error
}.

(** A [*zfile] or a [*zdir]; the map [items] of a directory holds either. *)
Inductive znode : Type :=
| zfileNode (me : zipFile)
| zdirNode (items : gmap string znode).

(** [strings.TrimRight(s, "/")]. *)
Fixpoint TrimRight (s : string) : string :=
  match s with
  | EmptyString => EmptyString
  | String c s' =>
      match TrimRight s' with
      | EmptyString =>
          if bool_decide (c = slash) then EmptyString else String c EmptyString
      | t => String c t
      end
  end.

(** One turn of the loop of [mkTree] on the directory [items]: go down
    [parts[0 .. len-2]], making the directories that are missing, and bind
    [parts[len-1]] to [leaf].  The type assertion of the child to a
    directory panics on a file; [parts] is never empty, as it comes from
    [strings.Split].  Go updates the maps in place; each directory is held
    by one map only, so the update is the insertion along the path. *)
Fixpoint place (parts : list string) (leaf : znode) (items : gmap string znode)
    {struct parts} : outcome (gmap string znode) :=
  match parts with
  | [] => Panics
  | p :: rest =>
      match rest with
      | [] => Returns (<[p := leaf]> items)
      | _ :: _ =>
          match items !! p with
          | Some (zfileNode _) => Panics
          | Some (zdirNode sub) =>
              match place rest leaf sub with
              | Returns sub' => Returns (<[p := zdirNode sub']> items)
              | Panics => Panics
              end
          | None =>
              match place rest leaf ∅ with
              | Returns sub' => Returns (<[p := zdirNode sub']> items)
              | Panics => Panics
              end
          end
      end
  end.

Definition zparts (file : zipFile) : list string := Split (TrimRight (Name file)).

Definition zleaf (file : zipFile) : znode :=
  if IsDir_ file then zdirNode ∅ else zfileNode file.

Fixpoint mkTree_loop (files : list zipFile) (base : gmap string znode)
  : outcome (gmap string znode) :=
  match files with
  | [] => Returns base
  | file :: rest =>
      match place (zparts file) (zleaf file) base with
      | Returns base' => mkTree_loop rest base'
      | Panics => Panics
      end
  end.

Definition mkTree (files : list zipFile) : outcome znode :=
  match mkTree_loop files ∅ with
  | Returns base => Returns (zdirNode base)
  | Panics => Panics
  end.

(** The conversion [int64(x)] of a [uint64]: values from [2^63] on wrap to
    negative numbers. *)
Definition int64 (x : Z) : Z := (x + 2 ^ 63) `mod` 2 ^ 64 - 2 ^ 63.

(** The methods of [*zfile] and [*zdir], as the [DataSource] the node is.
    [List] ranges over a Go map, whose order is not fixed; the order of
    [map_to_list] stands for it. *)
Fixpoint znodeDS (n : znode) : DataSource :=
  match n with
  | zfileNode me =>
      Item (Some {| File_Read := Open me;
                    File_Write := (None, Some (NewError ErrReadOnly));
                    File_Append := (None, Some (NewError ErrReadOnly));
                    File_Size := int64 (UncompressedSize64 me) |})
           None
  | zdirNode items =>
      let children := znodeDS <$> items in
      Item None
           (Some {| Dir_Child := λ id _, children !! id;
                    Dir_Delete := λ _, Some (NewError ErrReadOnly);
                    Dir_List := (map_to_list items).*1 |})
  end.

(** * Vocabulary of the further properties *)

(** The bytes of a segment that pass [validatePath]: no slash and none of the
    reserved characters; the segment is not empty, ["."] or [".."]. *)
Definition validSegment (d : string) : Prop :=
  d ≠ "" ∧ d ≠ "." ∧ d ≠ ".."
  ∧ ∀ c, c ∈ list_ascii_of_string d → c ≠ slash ∧ c ∉ reserved.

(** [strings.Join(dirs, "/")], the canonical spelling of a segment list. *)
Fixpoint Join (dirs : list string) : string :=
  match dirs with
  | [] => ""
  | d :: rest =>
      match rest with
      | [] => d
      | _ :: _ => d +:+ String slash (Join rest)
      end
  end.

(** The last slash of a string, found structurally: what stands before it
    and what follows it. *)
Fixpoint lastSlash (s : string) : option (string * string) :=
  match s with
  | EmptyString => None
  | String c s' =>
      match lastSlash s' with
      | Some (n, l) => Some (String c n, l)
      | None => if bool_decide (c = slash) then Some (EmptyString, s') else None
      end
  end.

(** A binding as Mount and SwapMount make them: the item has one of the two
    capabilities and the mount point is made of valid names. *)
Definition bindingOK (src : source) : Prop :=
  (is_Some (asFile (ds src)) ∨ is_Some (asDir (ds src)))
  ∧ Forall validSegment (mp src).

(** The shape of the states a client can build: the pointers of the read
    half are distinct and point into the store, the write half is the read
    half with some pointers left out, and every struct is a sound binding. *)
Definition wellFormed (fs : FileSystem) : Prop :=
  NoDup (fs_r fs)
  ∧ (∀ p, p ∈ fs_r fs → (p < length (store fs))%nat)
  ∧ fs_w fs `sublist_of` fs_r fs
  ∧ Forall bindingOK (store fs).

(** The node at the end of [parts] in a tree of zip nodes. *)
Fixpoint zfind (parts : list string) (n : znode) {struct parts} : option znode :=
  match parts with
  | [] => Some n
  | p :: rest =>
      match n with
      | zdirNode items => items !! p ≫= zfind rest
      | zfileNode _ => None
      end
  end.

(** The files of an archive that [mkTree] takes in without loss: no file
    is named like an earlier one or like a directory above an earlier one,
    and no plain file is named like a directory above a later one. *)
Fixpoint zconsistent (files : list zipFile) : Prop :=
  match files with
  | [] => True
  | file :: rest =>
      (∀ later, later ∈ rest →
         ¬ zparts later `prefix_of` zparts file
         ∧ (IsDir_ file = false → ¬ zparts file `prefix_of` zparts later))
      ∧ zconsistent rest
  end.

(** [file] is in the tree, as what [mkTree] makes of it: a file entry as
    its own [*zfile], a directory entry as a directory. *)
Definition zfound (tree : znode) (file : zipFile) : Prop :=
  if IsDir_ file
  then ∃ sub, zfind (zparts file) tree = Some (zdirNode sub)
  else zfind (zparts file) tree = Some (zfileNode file).

(** The method set of a [*zdir] with the given [items]. *)
Definition zdirOpsOf (items : gmap string znode) : Dir DataSource :=
  {| Dir_Child := λ id _, (znodeDS <$> items) !! id;
     Dir_Delete := λ _, Some (NewError ErrReadOnly);
     Dir_List := (map_to_list items).*1 |}.

(** * Example data sources and file systems

    [zfile] and [zdir] have the shape of the zip backend of the repository:
    a file tree built once, whose [Delete], [Write] and [Append] answer
    [ErrReadOnly].  [wdir] is a directory whose [Delete] succeeds. *)

Definition zfile (size : Z) : DataSource :=
  Item (Some {| File_Read := (Some {| rc_ReadAll := ([], None) |}, None);
                File_Write := (None, Some (NewError ErrReadOnly));
                File_Append := (None, Some (NewError ErrReadOnly));
                File_Size := size |})
       None.

Fixpoint zitem (items : list (string * DataSource)) (id : string)
  : option DataSource :=
  match items with
  | [] => None
  | (name, item) :: rest =>
      if bool_decide (name = id) then Some item else zitem rest id
  end.

Definition zdirOps (items : list (string * DataSource)) : Dir DataSource :=
  {| Dir_Child := λ id _, zitem items id;
     Dir_Delete := λ _, Some (NewError ErrReadOnly);
     Dir_List := items.*1 |}.

Definition zdir (items : list (string * DataSource)) : DataSource :=
  Item None (Some (zdirOps items)).

Definition wdirOps (items : list (string * DataSource)) : Dir DataSource :=
  {| Dir_Child := λ id _, zitem items id;
     Dir_Delete := λ _, None;
     Dir_List := items.*1 |}.

Definition wdir (items : list (string * DataSource)) : DataSource :=
  Item None (Some (wdirOps items)).

(** A value with neither capability. *)
Definition neither : DataSource := Item None None.

(** ["x"] holds a directory with the file ["y.txt"]; mounted at [a/b] for
    reading and writing. *)
Definition treeX : DataSource := zdir [("x", zdir [("y.txt", zfile 5)])].
Definition fsAB : FileSystem := (Mount zeroFS "a/b" treeX true).1.

(** [fsAB] after a swap made through the read half only. *)
Definition fsSwapped : FileSystem := (SwapMount fsAB "a/b" (zfile 1) false).1.

(** Two directories multiplexed at [m] for writing; only the first has
    ["j"], only the second has ["k"]. *)
Definition fsTwo : FileSystem :=
  (Mount (Mount zeroFS "m" (wdir [("j", zfile 1)]) true).1
         "m" (zdir [("k", zfile 2)]) true).1.

(** A directory with the child ["b"] at [a], and a file mounted at [a/b]:
    the name ["b"] is both a listed child and a mount-point name. *)
Definition fsOverlap : FileSystem :=
  (Mount (Mount zeroFS "a" (zdir [("b", zfile 1)]) false).1
         "a/b" (zfile 2) false).1.

(** A directory with the file ["x"] and a plain file, multiplexed at [a]. *)
Definition fsMixed : FileSystem :=
  (Mount (Mount zeroFS "a" (zdir [("x", zfile 1)]) false).1
         "a" (zfile 2) false).1.

(** A writable directory that, like a directory of the operating system,
    answers for the name [".."]; mounted at [m]. *)
Definition fsDots : FileSystem :=
  (Mount zeroFS "m" (wdir [("..", zfile 0); ("f", zfile 1)]) true).1.

(** The archive of the example test: the directory [a/] with three files,
    and two files at the top; each file holds its own name. *)
Definition zentry (name : string) (dir : bool) (content : string) : zipFile :=
  {| Name := name; IsDir_ := dir;
     UncompressedSize64 := Z.of_nat (String.length content);
     Open := (Some {| rc_ReadAll := (list_byte_of_string content, None) |}, None) |}.

Definition exampleZip : list zipFile :=
  [zentry "a/" true ""; zentry "a/x.txt" false "x.txt";
   zentry "a/y.txt" false "y.txt"; zentry "a/z.txt" false "z.txt";
   zentry "b.txt" false "b.txt"; zentry "c.txt" false "c.txt"].

(** * Properties *)

(** ** The deletion loop is a filter *)

Section CompactionFacts.
Context {A : Type} (kill : A → bool).

Lemma compact_from_filter (fuel i : nat) (xs : list A) :
  (length xs - i ≤ fuel)%nat →
  compact_from kill fuel i xs = take i xs ++ filter (kept kill) (drop i xs).
Proof.
  revert i xs. induction fuel as [|fuel IH]; intros i xs Hfuel; simpl.
  - rewrite take_ge, drop_ge by lia. by rewrite app_nil_r.
  - destruct (xs !! i) as [x|] eqn:Hi.
    + pose proof (lookup_lt_Some _ _ _ Hi) as Hlt.
      rewrite (drop_S _ _ _ Hi).
      destruct (kill x) eqn:Hk.
      * rewrite IH by (rewrite length_delete by eauto; lia).
        rewrite delete_take_drop.
        rewrite take_app_le by (rewrite length_take; lia).
        rewrite take_take, Nat.min_id.
        rewrite drop_app_length' by (rewrite length_take; lia).
        rewrite filter_cons_False; [done|]. unfold kept. by rewrite Hk.
      * rewrite IH by lia.
        rewrite (take_S_r _ _ _ Hi), <-app_assoc. simpl.
        rewrite filter_cons_True; done.
    + apply lookup_ge_None in Hi.
      rewrite take_ge, drop_ge by lia. by rewrite app_nil_r.
Qed.

Lemma compact_filter (xs : list A) : compact kill xs = filter (kept kill) xs.
Proof.
  unfold compact. rewrite compact_from_filter by lia. by rewrite take_0, drop_0.
Qed.
End CompactionFacts.

(** ** Matching of mount points *)

Lemma sameSegments_prefix (dirs mp : list string) :
  sameSegments dirs mp = true ↔ dirs `prefix_of` mp.
Proof.
  revert mp. induction dirs as [|d dirs IH]; intros mp; simpl.
  - split; [intros _; apply prefix_nil | done].
  - destruct mp as [|m mp].
    + split; [done | intros H; by apply prefix_nil_not in H].
    + rewrite andb_true_iff, bool_decide_eq_true, IH. split.
      * intros [-> H]. by apply prefix_cons.
      * intros H. split; [by apply prefix_cons_inv_1 in H | by apply prefix_cons_inv_2 in H].
  Qed.

Lemma matchesMP_eq (dirs mp : list string) :
  matchesMP dirs mp = true ↔ mp = dirs.
Proof.
  unfold matchesMP. rewrite andb_true_iff, bool_decide_eq_true, sameSegments_prefix.
  split.
  - intros [Hlen [k ->]]. rewrite length_app in Hlen.
    destruct k; [by rewrite app_nil_r | simpl in Hlen; lia].
  - intros ->. split; [done | exists []; by rewrite app_nil_r].
Qed.

Lemma matchesMP_false (dirs mp : list string) :
  matchesMP dirs mp = false ↔ mp ≠ dirs.
Proof.
  rewrite <-matchesMP_eq. destruct (matchesMP dirs mp); naive_solver.
Qed.

Lemma nextSegment_Some (dirs mp : list string) (m : string) :
  nextSegment dirs mp = Some m ↔ ∃ rest, mp = dirs ++ m :: rest.
Proof.
  unfold nextSegment. case_bool_decide as Hlen.
  - split; [done|]. intros [rest ->]. rewrite length_app in Hlen. simpl in Hlen. lia.
  - destruct (sameSegments dirs mp) eqn:Hs.
    + apply sameSegments_prefix in Hs as [k ->].
      rewrite lookup_app_r, Nat.sub_diag by lia.
      destruct k as [|m' k]; [rewrite length_app in Hlen; simpl in Hlen; lia|].
      simpl. split.
      * intros [= ->]. by exists k.
      * intros [rest Heq]. apply app_inv_head in Heq. congruence.
    + split; [done|]. intros [rest ->].
      assert (sameSegments dirs (dirs ++ m :: rest) = true) as Ht
        by (apply sameSegments_prefix; by eexists).
      congruence.
Qed.

Lemma nextSegment_is_Some (dirs mp : list string) :
  is_Some (nextSegment dirs mp) ↔ strictPrefix dirs mp.
Proof.
  unfold strictPrefix, is_Some. setoid_rewrite nextSegment_Some. done.
Qed.

Lemma isMP_loop_true (dirs : list string) (sources : list source) :
  isMP_loop dirs sources = true ↔
  ∃ src, src ∈ sources ∧ strictPrefix dirs (mp src).
Proof.
  induction sources as [|src rest IH]; simpl.
  - split; [done | intros (? & []%elem_of_nil & _)].
  - setoid_rewrite elem_of_cons.
    pose proof (nextSegment_is_Some dirs (mp src)) as Hn.
    destruct (nextSegment dirs (mp src)) as [m|].
    + split; [intros _; exists src; split; [by left | by apply Hn] | done].
    + rewrite IH. split.
      * intros (s & Hin & Hs). exists s. by split; [right|].
      * intros (s & [-> | Hin] & Hs); [apply Hn in Hs as [? [=]] | by exists s].
Qed.

Lemma underMP_Some (mp dirs rest : list string) :
  underMP mp dirs = Some rest ↔ dirs = mp ++ rest.
Proof.
  revert dirs. induction mp as [|m mp IH]; intros dirs; simpl.
  - split; congruence.
  - destruct dirs as [|d dirs]; [split; discriminate|].
    case_bool_decide as Hne.
    + split; [discriminate | intros [= -> _]; done].
    + subst d. rewrite IH. split; congruence.
Qed.

Lemma underMP_self (dirs : list string) : underMP dirs dirs = Some [].
Proof. apply underMP_Some. by rewrite app_nil_r. Qed.

(** ** Resolution: candidates and the post-loop policy *)

Lemma GetDSsAt_loop_omap (create : bool) (dirs : list string)
    (sources : list source) (dss : list DataSource) :
  GetDSsAt_loop create dirs sources dss = dss ++ omap (resolve create dirs) sources.
Proof.
  revert dss. induction sources as [|src rest IH]; intros dss; simpl.
  - by rewrite app_nil_r.
  - destruct (resolve create dirs src) as [item|]; rewrite IH; [|done].
    by rewrite <-app_assoc.
Qed.

Lemma omap_nil_None {A B : Type} (f : A → option B) (l : list A) :
  omap f l = [] ↔ ∀ x, x ∈ l → f x = None.
Proof.
  induction l as [|a l IH]; simpl.
  - split; [intros _ x Hx; by apply elem_of_nil in Hx | done].
  - destruct (f a) as [b|] eqn:Hfa.
    + split; [done|]. intros H. specialize (H a (list_elem_of_here _ _)). congruence.
    + rewrite IH. split.
      * intros H x [->|Hx]%elem_of_cons; auto.
      * intros H x Hx. apply H. by right.
Qed.

Lemma GetDSsAt_unfold (fs : FileSystem) (path : string) (create r : bool)
    (dirs : list string) :
  validatePath path = Some dirs →
  GetDSsAt fs path create r =
    let dss := omap (resolve create dirs) (view fs r) in
    if bool_decide (dss ≠ []) then (dss, None)
    else if isMP_loop dirs (view fs r)
         then ([], Some (mkError path ErrBadAction None))
         else ([], Some (mkError path ErrNotFound None)).
Proof.
  intros Hv. unfold GetDSsAt, isMP. rewrite Hv, GetDSsAt_loop_omap. done.
Qed.

(** C1. For a valid path and either half: when no binding yields an item,
    GetDSsAt (and so GetDSAt) fails with ErrBadAction if the path is a strict
    prefix of a mount point of that half and with ErrNotFound otherwise; when
    some binding yields an item, the candidates are returned with no error. *)
Theorem GetDSsAt_policy (fs : FileSystem) (path : string) (create r : bool)
    (dirs : list string) :
  validatePath path = Some dirs →
  let nothing := ∀ src, src ∈ view fs r → resolve create dirs src = None in
  let subset := ∃ src, src ∈ view fs r ∧ strictPrefix dirs (mp src) in
  (nothing → subset →
     GetDSsAt fs path create r = ([], Some (mkError path ErrBadAction None))
     ∧ GetDSAt fs path create r = Returns (None, Some (mkError path ErrBadAction None)))
  ∧ (nothing → ¬ subset →
     GetDSsAt fs path create r = ([], Some (mkError path ErrNotFound None))
     ∧ GetDSAt fs path create r = Returns (None, Some (mkError path ErrNotFound None)))
  ∧ (¬ nothing →
     GetDSsAt fs path create r = (omap (resolve create dirs) (view fs r), None)).
Proof.
  intros Hv nothing subset.
  assert (Hmp : isMP_loop dirs (view fs r) = true ↔ subset) by apply isMP_loop_true.
  assert (Hno : omap (resolve create dirs) (view fs r) = [] ↔ nothing)
    by apply omap_nil_None.
  unfold GetDSAt. rewrite (GetDSsAt_unfold _ _ _ _ _ Hv). cbv zeta.
  split; [|split].
  - intros Hn Hs. apply Hno in Hn. apply Hmp in Hs. rewrite Hn, Hs. done.
  - intros Hn Hs. apply Hno in Hn. rewrite Hn.
    destruct (isMP_loop dirs (view fs r)); [exfalso; apply Hs; by apply Hmp | done].
  - intros Hn. rewrite bool_decide_true; [done|]. by rewrite Hno.
Qed.

Lemma GetDSsAt_policy_witness :
  GetDSsAt fsAB "a" false true = ([], Some (mkError "a" ErrBadAction None))
  ∧ GetDSsAt fsAB "c" false true = ([], Some (mkError "c" ErrNotFound None))
  ∧ ∃ item, GetDSsAt fsAB "a/b/x" false true = ([item], None).
Proof.
  assert (Hin : ∀ src : source, src ∈ view fsAB true → src = {| mp := ["a"; "b"]; ds := treeX |}).
  { intros src Hsrc. vm_compute in Hsrc. by apply list_elem_of_singleton in Hsrc. }
  split; [|split].
  - apply (GetDSsAt_policy fsAB "a" false true ["a"]).
    + vm_compute; reflexivity.
    + intros src ->%Hin. reflexivity.
    + exists {| mp := ["a"; "b"]; ds := treeX |}. split.
      * vm_compute. apply list_elem_of_here.
      * exists "b", []. reflexivity.
  - apply (GetDSsAt_policy fsAB "c" false true ["c"]).
    + vm_compute; reflexivity.
    + intros src ->%Hin. reflexivity.
    + intros (src & ->%Hin & m & rest & [=]).
  - eexists.
    apply (GetDSsAt_policy fsAB "a/b/x" false true ["a"; "b"; "x"]).
    + vm_compute; reflexivity.
    + intros Hn.
      specialize (Hn {| mp := ["a"; "b"]; ds := treeX |}).
      discriminate Hn. vm_compute. apply list_elem_of_here.
Defined.

(** C10. GetDSsAt returns a non-empty list with a nil error and an empty
    list with an error, so the [dss[0]] of GetDSAt never panics. *)
Theorem GetDSsAt_result_shape (fs : FileSystem) (path : string) (create r : bool) :
  match GetDSsAt fs path create r with
  | (dss, None) => dss ≠ []
  | (dss, Some _) => dss = []
  end
  ∧ ∃ res, GetDSAt fs path create r = Returns res.
Proof.
  unfold GetDSAt, GetDSsAt.
  destruct (validatePath path) as [dirs|]; [|eauto].
  case_bool_decide as Hne.
  - split; [done|].
    destruct (GetDSsAt_loop create dirs (view fs r) []) as [|first tl]; [done|].
    simpl. eauto.
  - destruct (isMP fs path r); eauto.
Qed.

(** ** Mount *)

Lemma resolve_at_mount_point (dirs : list string) (item : DataSource) :
  resolve false dirs {| mp := dirs; ds := item |} = Some item.
Proof. unfold resolve. simpl. rewrite underMP_self. reflexivity. Qed.

Lemma view_Mount (fs : FileSystem) (dirs : list string) (item : DataSource)
    (rw : bool) :
  let fs' := {| store := store fs ++ [{| mp := dirs; ds := item |}];
                fs_r := fs_r fs ++ [length (store fs)];
                fs_w := if rw then fs_w fs ++ [length (store fs)] else fs_w fs |} in
  ∃ before, view fs' true = before ++ [{| mp := dirs; ds := item |}].
Proof.
  intros fs'. unfold view, fs'. simpl. rewrite omap_app. simpl.
  rewrite lookup_app_r, Nat.sub_diag by lia. simpl. eauto.
Qed.

(** C4. After a successful Mount of an item with the File or the Dir
    capability at a valid path, resolving that path in the read half without
    creation returns no error and a candidate list that contains the item. *)
Theorem Mount_then_resolve (fs : FileSystem) (path : string) (dirs : list string)
    (item : DataSource) (rw : bool) :
  validatePath path = Some dirs →
  is_Some (asFile item) ∨ is_Some (asDir item) →
  ∃ fs' dss,
    Mount fs path item rw = (fs', None)
    ∧ GetDSsAt fs' path false true = (dss, None)
    ∧ item ∈ dss.
Proof.
  intros Hv Hcap. unfold Mount. rewrite Hv.
  assert (mountable item = true) as ->.
  { unfold mountable. apply orb_true_iff.
    destruct Hcap; [left | right]; by apply bool_decide_eq_true. }
  simpl.
  destruct (view_Mount fs dirs item rw) as [before Hview]. cbv zeta in Hview.
  eexists _, _. split; [reflexivity|].
  rewrite (GetDSsAt_unfold _ _ _ _ _ Hv). cbv zeta.
  rewrite Hview, omap_app. simpl. rewrite resolve_at_mount_point.
  rewrite bool_decide_true by (by destruct (omap _ before)).
  split; [reflexivity|]. apply elem_of_app. right. apply list_elem_of_here.
Qed.

Lemma Mount_then_resolve_witness :
  ∃ fs' dss,
    Mount fsAB "/a//b/" (zfile 7) false = (fs', None)
    ∧ GetDSsAt fs' "/a//b/" false true = (dss, None)
    ∧ zfile 7 ∈ dss.
Proof.
  apply (Mount_then_resolve fsAB "/a//b/" ["a"; "b"] (zfile 7) false).
  - vm_compute; reflexivity.
  - left. simpl. eauto.
Defined.

Example Mount_scenarios :
  Mount zeroFS "a" neither true = (zeroFS, Some (mkError "a" ErrBadAction None))
  ∧ Mount zeroFS "a|b" treeX true = (zeroFS, Some (mkError "a|b" ErrBadPath None))
  ∧ Mount zeroFS "a//b/" treeX true = Mount zeroFS "a/b" treeX true
  ∧ ListDirs fsAB "" = ["a"]
  ∧ ListDirs fsAB "a" = ["b"]
  ∧ ListFiles fsAB "a/b/x" = ["y.txt"]
  ∧ Exists fsAB "a" = Returns true
  ∧ IsMP fsAB "a" = true
  ∧ Size fsAB "a/b/x/y.txt" = Returns 5.
Proof. repeat split; vm_compute; reflexivity. Qed.

(** ** Unmount *)

Lemma omap_cons_Some {A B : Type} (f : A → option B) (x : A) (y : B) (l : list A) :
  f x = Some y → omap f (x :: l) = y :: omap f l.
Proof. intros H. simpl. by rewrite H. Qed.

Lemma omap_cons_None {A B : Type} (f : A → option B) (x : A) (l : list A) :
  f x = None → omap f (x :: l) = omap f l.
Proof. intros H. simpl. by rewrite H. Qed.

Lemma view_unmount (st : list source) (dirs : list string) (sources : list nat) :
  omap (λ p, st !! p) (unmount st dirs sources)
  = filter (λ src, mp src ≠ dirs) (omap (λ p, st !! p) sources).
Proof.
  unfold unmount. rewrite compact_filter.
  induction sources as [|p rest IH]; [done|].
  destruct (st !! p) as [src|] eqn:Hp.
  - rewrite (omap_cons_Some _ p src) by done.
    destruct (matchesMP dirs (mp src)) eqn:Hm.
    + rewrite filter_cons_False by (unfold kept, killed; rewrite Hp, Hm; done).
      apply matchesMP_eq in Hm.
      rewrite filter_cons_False by (intros H; by apply H). done.
    + rewrite filter_cons_True by (unfold kept, killed; rewrite Hp, Hm; done).
      apply matchesMP_false in Hm.
      rewrite (omap_cons_Some _ p src) by done.
      rewrite filter_cons_True by done. by rewrite IH.
  - rewrite (omap_cons_None _ p) by done.
    rewrite filter_cons_True by (unfold kept, killed; rewrite Hp; done).
    by rewrite (omap_cons_None _ p) by done.
Qed.

Lemma unmount_filter (st : list source) (dirs : list string) (sources : list nat) :
  unmount st dirs sources = filter (kept (killed st dirs)) sources.
Proof. apply compact_filter. Qed.

(** C8. For a valid path Unmount returns no error; the write half loses
    exactly the bindings whose segment sequence equals the normal form of the
    path, the read half loses them if and only if the flag is set, and what
    stays keeps its order (each half is the old one filtered). *)
Theorem Unmount_removes_exactly (fs : FileSystem) (path : string) (r : bool)
    (dirs : list string) :
  validatePath path = Some dirs →
  ∃ fs',
    Unmount fs path r = (fs', None)
    ∧ store fs' = store fs
    ∧ view fs' false = filter (λ src, mp src ≠ dirs) (view fs false)
    ∧ view fs' true =
        (if r then filter (λ src, mp src ≠ dirs) (view fs true) else view fs true)
    ∧ fs_w fs' `sublist_of` fs_w fs
    ∧ fs_r fs' `sublist_of` fs_r fs.
Proof.
  intros Hv. unfold Unmount. rewrite Hv. eexists. split; [done|].
  unfold view. simpl. split; [done|]. split; [apply view_unmount|].
  split; [destruct r; [apply view_unmount | done]|].
  split.
  - rewrite unmount_filter. apply sublist_filter.
  - destruct r; [rewrite unmount_filter; apply sublist_filter | done].
Qed.

Lemma Unmount_removes_exactly_witness :
  ∃ fs',
    Unmount fsAB "a/b/" false = (fs', None)
    ∧ store fs' = store fsAB
    ∧ view fs' false = filter (λ src, mp src ≠ ["a"; "b"]) (view fsAB false)
    ∧ view fs' true = view fsAB true
    ∧ fs_w fs' `sublist_of` fs_w fsAB
    ∧ fs_r fs' `sublist_of` fs_r fsAB.
Proof.
  apply (Unmount_removes_exactly fsAB "a/b/" false ["a"; "b"]).
  vm_compute; reflexivity.
Defined.

Example Unmount_no_match :
  Unmount fsAB "nowhere" true = (fsAB, None)
  ∧ view (Unmount fsAB "a/b" false).1 false = []
  ∧ view (Unmount fsAB "a/b" false).1 true = [{| mp := ["a"; "b"]; ds := treeX |}]
  ∧ view (Unmount fsAB "a/b" true).1 true = [].
Proof. repeat split; vm_compute; reflexivity. Qed.

(** ** Reachable states: the write half is part of the read half *)

Lemma Mount_halves (fs : FileSystem) (path : string) (item : DataSource) (rw : bool) :
  halves_ok fs → halves_ok (Mount fs path item rw).1.
Proof.
  intros Hok. unfold Mount.
  destruct (validatePath path) as [dirs|]; [|done].
  destruct (mountable item); [|done]. unfold halves_ok. simpl.
  intros p Hp. apply elem_of_app.
  destruct rw; [apply elem_of_app in Hp as [Hp|Hp]|]; auto.
Qed.

Lemma Unmount_halves (fs : FileSystem) (path : string) (r : bool) :
  halves_ok fs → halves_ok (Unmount fs path r).1.
Proof.
  intros Hok. unfold Unmount.
  destruct (validatePath path) as [dirs|]; [|done]. unfold halves_ok. simpl.
  intros p. rewrite unmount_filter, list_elem_of_filter. intros [Hkept Hp].
  destruct r; [|by apply Hok].
  rewrite unmount_filter, list_elem_of_filter. auto.
Qed.

Lemma SwapMount_halves (fs : FileSystem) (path : string) (item : DataSource)
    (rw : bool) :
  fs_r (SwapMount fs path item rw).1 = fs_r fs
  ∧ fs_w (SwapMount fs path item rw).1 = fs_w fs.
Proof.
  unfold SwapMount.
  destruct (validatePath path) as [dirs|]; [|done].
  destruct (mountable item); [|done]. simpl.
  destruct (remount dirs item (store fs) (fs_r fs)) as [st1 rtn]. done.
Qed.

Lemma step_halves (fs fs' : FileSystem) :
  step fs fs' → halves_ok fs → halves_ok fs'.
Proof.
  intros [f path item rw | f path r | f path item rw] Hok.
  - by apply Mount_halves.
  - by apply Unmount_halves.
  - destruct (SwapMount_halves f path item rw) as [Hr Hw].
    unfold halves_ok. by rewrite Hr, Hw.
Qed.

Lemma view_halves (fs : FileSystem) (src : source) :
  halves_ok fs → src ∈ view fs false → src ∈ view fs true.
Proof.
  unfold view. simpl. intros Hok (p & Hp & Hsrc)%list_elem_of_omap.
  apply list_elem_of_omap. exists p. auto.
Qed.

(** C9. In every state reached from the zero value by Mount, Unmount and
    SwapMount, each binding of the write half is a binding of the read half:
    as a pointer, and so as the (mount point, data source) pair it holds. *)
Theorem write_half_in_read_half (fs : FileSystem) :
  reachable fs →
  (∀ p, p ∈ fs_w fs → p ∈ fs_r fs)
  ∧ (∀ src, src ∈ view fs false → src ∈ view fs true).
Proof.
  intros Hreach.
  assert (Hok : halves_ok fs).
  { induction Hreach as [|fs fs' _ IH Hstep]; [intros p Hp; by apply elem_of_nil in Hp|].
    by apply (step_halves fs fs'). }
  split; [exact Hok | intros src; by apply view_halves].
Qed.

Lemma write_half_in_read_half_witness :
  (∀ p, p ∈ fs_w fsSwapped → p ∈ fs_r fsSwapped)
  ∧ (∀ src, src ∈ view fsSwapped false → src ∈ view fsSwapped true).
Proof.
  apply (write_half_in_read_half fsSwapped).
  eapply reachable_step; [eapply reachable_step; [apply reachable_zero|]|].
  - apply (step_Mount zeroFS "a/b" treeX true).
  - apply (step_SwapMount fsAB "a/b" (zfile 1) false).
Defined.

(** Mounted for writing at [a/b], then swapped through the read half only:
    the struct is shared, so the write half sees the new item too. *)
Example SwapMount_shares_binding :
  view fsSwapped false = [{| mp := ["a"; "b"]; ds := zfile 1 |}]
  ∧ view fsSwapped true = [{| mp := ["a"; "b"]; ds := zfile 1 |}]
  ∧ (SwapMount fsAB "a/b" (zfile 1) false).2 = Some treeX.
Proof. repeat split; vm_compute; reflexivity. Qed.

(** ** Delete *)

Lemma Delete_loop_skips (path last : string) (before rest : list DataSource) :
  (∀ x, x ∈ before → ¬ hasChild last x) →
  Delete_loop path last (before ++ rest) = Delete_loop path last rest.
Proof.
  induction before as [|x before IH]; intros Hno; [done|]. simpl.
  assert (Hx : ¬ hasChild last x) by (apply Hno, list_elem_of_here).
  assert (Hrest : ∀ y, y ∈ before → ¬ hasChild last y)
    by (intros y Hy; apply Hno; by right).
  destruct (asDir x) as [d|] eqn:Hd; [|by apply IH].
  case_bool_decide as Hc; [|by apply IH].
  exfalso. apply Hx. by exists d.
Qed.

(** What Delete does with the two strings [trimLastPath] gives it: when the
    first one resolves in the write half, Delete calls the backend delete of
    the first candidate that is a Dir with a child called as the second one
    and returns its wrapped outcome; when no candidate is such a Dir, no
    backend is called and the error is ErrNotFound.  The two strings are
    the parent and the final segment of the path only when the path does
    not end with a slash. *)
Lemma Delete_first_container (fs : FileSystem) (path npath last : string)
    (dss : list DataSource) :
  trimLastPath path = (npath, last) →
  GetDSsAt fs npath false false = (dss, None) →
  (∀ before item d after,
     dss = before ++ item :: after →
     (∀ x, x ∈ before → ¬ hasChild last x) →
     asDir item = Some d → is_Some (Dir_Child d last 0) →
     Delete fs path = ([CallDelete d last], wrapError (Dir_Delete d last) path))
  ∧ ((∀ x, x ∈ dss → ¬ hasChild last x) →
     Delete fs path = ([], Some (mkError path ErrNotFound None))).
Proof.
  intros Htrim Hres. unfold Delete. rewrite Htrim, Hres. split.
  - intros before item d after -> Hbefore Hd Hc.
    rewrite Delete_loop_skips by done. simpl. rewrite Hd.
    by rewrite bool_decide_true.
  - intros Hno. rewrite <-(app_nil_r dss).
    by rewrite Delete_loop_skips.
Qed.

Lemma Delete_first_container_witness :
  Delete fsTwo "m/k"
    = ([CallDelete (zdirOps [("k", zfile 2)]) "k"],
       Some (mkError "m/k" ErrReadOnly None))
  ∧ Delete fsTwo "m/none" = ([], Some (mkError "m/none" ErrNotFound None)).
Proof.
  split.
  - destruct (Delete_first_container fsTwo "m/k" "m" "k"
                [wdir [("j", zfile 1)]; zdir [("k", zfile 2)]]) as [Hfirst _];
      [vm_compute; reflexivity ..|].
    apply (Hfirst [wdir [("j", zfile 1)]] (zdir [("k", zfile 2)])
             (zdirOps [("k", zfile 2)]) []).
    + reflexivity.
    + intros x ->%list_elem_of_singleton (d & [= <-] & Hc).
      by destruct Hc as [? [=]].
    + reflexivity.
    + simpl. eauto.
  - destruct (Delete_first_container fsTwo "m/none" "m" "none"
                [wdir [("j", zfile 1)]; zdir [("k", zfile 2)]]) as [_ Hnone];
      [vm_compute; reflexivity ..|].
    apply Hnone.
    intros x Hx (d & Hd & Hc).
    apply elem_of_cons in Hx as [-> | ->%list_elem_of_singleton];
      injection Hd as <-; by destruct Hc as [? [=]].
Defined.

(** C2. Delete breaks the rule on a path that ends with a slash.  The
    segments of ["m/j/"] are [m] and [j]; the parent [m] resolves in the
    write half and its first candidate is a Dir that has the child ["j"].
    But Delete cuts the raw string at its last slash, resolves ["m/j"] as
    the parent, asks for a child with the empty name and returns
    ErrNotFound without calling any backend; for the spelling ["m/j"] it
    calls the delete of that first candidate. *)
Theorem Delete_trailing_slash_misses_child :
  validatePath "m/j/" = Some ["m"; "j"]
  ∧ validatePath "m" = Some ["m"]
  ∧ GetDSsAt fsTwo "m" false false
    = ([wdir [("j", zfile 1)]; zdir [("k", zfile 2)]], None)
  ∧ asDir (wdir [("j", zfile 1)]) = Some (wdirOps [("j", zfile 1)])
  ∧ Dir_Child (wdirOps [("j", zfile 1)]) "j" 0 = Some (zfile 1)
  ∧ trimLastPath "m/j/" = ("m/j", "")
  ∧ Delete fsTwo "m/j/" = ([], Some (mkError "m/j/" ErrNotFound None))
  ∧ Delete fsTwo "m/j" = ([CallDelete (wdirOps [("j", zfile 1)]) "j"], None).
Proof. repeat apply conj; vm_compute; reflexivity. Qed.

(** ** The path carried by errors *)

Lemma wrapError_Path (err : option error) (path : string) (e : Error) :
  wrapError err path = Some e → Path e = path.
Proof.
  destruct err as [[a | op ospath [] | | msg]|]; simpl; intros [= <-]; done.
Qed.

Lemma GetDSsAt_error_Path (fs : FileSystem) (path : string) (create r : bool)
    (e : Error) :
  (GetDSsAt fs path create r).2 = Some e → Path e = path.
Proof.
  unfold GetDSsAt. destruct (validatePath path) as [dirs|].
  - case_bool_decide; [done|]. destruct (isMP fs path r); simpl; by intros [= <-].
  - simpl. by intros [= <-].
Qed.

Lemma GetDSAt_error_Path (fs : FileSystem) (path : string) (create r : bool)
    (item : option DataSource) (e : Error) :
  GetDSAt fs path create r = Returns (item, Some e) → Path e = path.
Proof.
  unfold GetDSAt. pose proof (GetDSsAt_error_Path fs path create r) as H.
  destruct (GetDSsAt fs path create r) as [dss [e'|]]; simpl in *.
  - intros [= _ <-]. by apply H.
  - destruct (dss !! 0%nat); intros [=].
Qed.

(** Every error returned by Mount, Unmount, Read, ReadAll, Write, Append and
    WriteAll carries the path the caller passed. *)
Lemma facade_error_Path (fs : FileSystem) (path : string) (e : Error) :
  (∀ item rw, (Mount fs path item rw).2 = Some e → Path e = path)
  ∧ (∀ r, (Unmount fs path r).2 = Some e → Path e = path)
  ∧ (∀ rc, Read fs path = Returns (rc, Some e) → Path e = path)
  ∧ (∀ content, ReadAll fs path = Returns (content, Some e) → Path e = path)
  ∧ (∀ wc, Write fs path = Returns (wc, Some e) → Path e = path)
  ∧ (∀ wc, Append fs path = Returns (wc, Some e) → Path e = path)
  ∧ (∀ content, WriteAll fs path content = Returns (Some e) → Path e = path).
Proof.
  assert (HR : ∀ rc, Read fs path = Returns (rc, Some e) → Path e = path).
  { intros rc. unfold Read.
    pose proof (GetDSAt_error_Path fs path false true) as H.
    destruct (GetDSAt fs path false true) as [[item [e'|]]|]; [| |done].
    - intros [= _ <-]. by eapply H.
    - destruct (item ≫= asFile) as [f|]; [|by intros [= _ <-]].
      destruct (File_Read f) as [rc' err]. intros [= _ Hw].
      by apply wrapError_Path in Hw. }
  assert (HW : ∀ open wc,
             openForWriting open fs path = Returns (wc, Some e) → Path e = path).
  { intros open wc. unfold openForWriting.
    pose proof (GetDSAt_error_Path fs path true false) as H.
    destruct (GetDSAt fs path true false) as [[item [e'|]]|]; [| |done].
    - intros [= _ <-]. by eapply H.
    - destruct (item ≫= asFile) as [f|]; [|by intros [= _ <-]].
      destruct (open f) as [wc' err]. intros [= _ Hw].
      by apply wrapError_Path in Hw. }
  repeat apply conj.
  - intros item rw. unfold Mount. destruct (validatePath path); simpl.
    + destruct (mountable item); simpl; [done | by intros [= <-]].
    + by intros [= <-].
  - intros r. unfold Unmount. destruct (validatePath path); simpl; [done | by intros [= <-]].
  - exact HR.
  - intros content. unfold ReadAll.
    destruct (Read fs path) as [[rc [e'|]]|] eqn:Hread; [| |done].
    + destruct rc; intros [= _ <-]; by eapply HR.
    + destruct rc as [reader|]; [|done].
      destruct (rc_ReadAll reader) as [c err]. intros [= _ Hw].
      by apply wrapError_Path in Hw.
  - apply HW.
  - apply HW.
  - intros content. unfold WriteAll.
    pose proof (HW File_Write) as HW'. fold Write in HW'.
    destruct (Write fs path) as [[wc [e'|]]|] eqn:Hwrite; [| |done].
    + destruct wc; intros [= <-]; by eapply HW'.
    + destruct wc as [writer|]; [|done]. intros [= Hw].
      by apply wrapError_Path in Hw.
Qed.

(** C5. Delete breaks the rule: the error of a parent that does not resolve
    is returned as GetDSsAt made it, with the parent path in its Path field. *)
Theorem Delete_error_has_parent_path :
  trimLastPath "a/b" = ("a", "b")
  ∧ Delete zeroFS "a/b" = ([], Some (mkError "a" ErrNotFound None))
  ∧ ∀ e, (Delete zeroFS "a/b").2 = Some e → Path e ≠ "a/b".
Proof.
  split; [|split]; [vm_compute; reflexivity ..|].
  intros e. vm_compute. intros [= <-]. simpl. discriminate.
Qed.

(** ** Enumeration: first occurrence wins *)

Lemma elem_of_firsts (l : list string) (x : string) : x ∈ firsts l ↔ x ∈ l.
Proof.
  induction l as [|a l IH]; [done|]. simpl.
  rewrite !elem_of_cons, list_elem_of_filter, IH.
  destruct (decide (x = a)); naive_solver.
Qed.

Lemma NoDup_firsts (l : list string) : NoDup (firsts l).
Proof.
  induction l as [|a l IH]; simpl; [constructor|].
  constructor; [|by apply NoDup_filter].
  rewrite list_elem_of_filter. naive_solver.
Qed.

Lemma filter_all {A : Type} (P : A → Prop) `{!∀ x, Decision (P x)} (l : list A) :
  (∀ x, x ∈ l → P x) → filter P l = l.
Proof.
  induction l as [|a l IH]; intros Hall; [done|].
  rewrite filter_cons_True by (apply Hall, list_elem_of_here).
  rewrite IH; [done|]. intros x Hx. apply Hall. by right.
Qed.

Lemma filter_twice {A : Type} (P Q R : A → Prop) `{!∀ x, Decision (P x)}
    `{!∀ x, Decision (Q x)} `{!∀ x, Decision (R x)} (l : list A) :
  (∀ x, R x ↔ P x ∧ Q x) → filter P (filter Q l) = filter R l.
Proof.
  intros Hiff. induction l as [|a l IH]; [done|].
  destruct (decide (Q a)) as [Hq|Hq].
  - rewrite (filter_cons_True Q) by done.
    destruct (decide (P a)) as [Hp|Hp].
    + rewrite (filter_cons_True P), (filter_cons_True R) by (done || by apply Hiff).
      by rewrite IH.
    + rewrite (filter_cons_False P), (filter_cons_False R); [done | | done].
      intros Hr. apply Hiff in Hr. tauto.
  - rewrite (filter_cons_False Q) by done.
    rewrite (filter_cons_False R); [done|]. intros Hr. apply Hiff in Hr. tauto.
Qed.

Lemma firsts_app (l1 l2 : list string) :
  firsts (l1 ++ l2) = firsts l1 ++ filter (λ y, y ∉ l1) (firsts l2).
Proof.
  induction l1 as [|a l1 IH]; simpl.
  - symmetry. apply filter_all. intros x _. apply not_elem_of_nil.
  - f_equal. rewrite IH, filter_app. f_equal.
    apply filter_twice. intros x. rewrite not_elem_of_cons. tauto.
Qed.

Lemma List_items_firsts (items : list string) (have : gset string)
    (rtn : list string) :
  List_items items (have, rtn)
  = (list_to_set items ∪ have, rtn ++ filter (λ y, y ∉ have) (firsts items)).
Proof.
  revert have rtn. induction items as [|x items IH]; intros have rtn; simpl.
  - rewrite app_nil_r. f_equal. set_solver.
  - case_bool_decide as Hx.
    + rewrite IH, filter_cons_True by done. rewrite <-app_assoc. simpl.
      f_equal; [set_solver|]. do 2 f_equal. symmetry.
      apply filter_twice. intros y. set_solver.
    + rewrite IH, filter_cons_False by tauto.
      f_equal; [set_solver|]. f_equal. symmetry.
      apply filter_twice. intros y. set_solver.
Qed.

Lemma List_loop_firsts (dss : list DataSource) (have : gset string)
    (rtn : list string) :
  List_loop dss (have, rtn)
  = (list_to_set (childNames dss) ∪ have,
     rtn ++ filter (λ y, y ∉ have) (firsts (childNames dss))).
Proof.
  revert have rtn. induction dss as [|item rest IH]; intros have rtn.
  - simpl. rewrite app_nil_r. f_equal. set_solver.
  - unfold childNames. simpl. destruct (asDir item) as [d|]; simpl.
    + fold (childNames rest). rewrite List_items_firsts, IH.
      rewrite firsts_app, filter_app, <-app_assoc.
      f_equal; [set_solver|]. do 2 f_equal. symmetry.
      apply filter_twice. intros y. set_solver.
    + apply IH.
Qed.

Lemma mountSubset_loop_items (dirs : list string) (sources : list source)
    (have : gset string) (rtn : list string) :
  mountSubset_loop dirs sources have rtn
  = (List_items (mountNames dirs sources) (have, rtn)).2.
Proof.
  revert have rtn. induction sources as [|src rest IH]; intros have rtn; [done|].
  unfold mountNames. simpl.
  destruct (nextSegment dirs (mp src)) as [m|]; [|apply IH].
  simpl. case_bool_decide as Hm.
  - rewrite bool_decide_false by tauto. apply IH.
  - rewrite bool_decide_true by done. apply IH.
Qed.

Lemma mountSubset_firsts (fs : FileSystem) (path : string) (r : bool)
    (dirs : list string) :
  validatePath path = Some dirs →
  mountSubset fs path r = firsts (mountNames dirs (view fs r)).
Proof.
  intros Hv. unfold mountSubset. rewrite Hv, mountSubset_loop_items.
  rewrite List_items_firsts. simpl. apply filter_all. intros x _. set_solver.
Qed.

Lemma elem_of_childNames (dss : list DataSource) (x : string) :
  x ∈ childNames dss ↔ ∃ item d, item ∈ dss ∧ asDir item = Some d ∧ x ∈ Dir_List d.
Proof.
  unfold childNames. rewrite list_elem_of_join. split.
  - intros (l & Hx & (item & Hitem & Hl)%list_elem_of_omap).
    destruct (asDir item) as [d|] eqn:Hd; [|done].
    injection Hl as <-. by exists item, d.
  - intros (item & d & Hitem & Hd & Hx). exists (Dir_List d). split; [done|].
    apply list_elem_of_omap. exists item. by rewrite Hd.
Qed.

Lemma elem_of_mountNames (dirs : list string) (sources : list source) (x : string) :
  x ∈ mountNames dirs sources ↔
  ∃ src rest, src ∈ sources ∧ mp src = dirs ++ x :: rest.
Proof.
  unfold mountNames. rewrite list_elem_of_omap. split.
  - intros (src & Hsrc & (rest & Hmp)%nextSegment_Some). by exists src, rest.
  - intros (src & rest & Hsrc & Hmp). exists src. split; [done|].
    apply nextSegment_Some. by exists rest.
Qed.

(** C3, as stated, fails: resolution succeeds at [a] and List returns the
    name ["b"] twice. *)
Lemma List_repeats_coinciding_name :
  (GetDSsAt fsOverlap "a" false true).2 = None
  ∧ List fsOverlap "a" = ["b"; "b"]
  ∧ ¬ NoDup (List fsOverlap "a").
Proof.
  split; [vm_compute; reflexivity|].
  assert (H : List fsOverlap "a" = ["b"; "b"]) by (vm_compute; reflexivity).
  split; [exact H|]. rewrite H. intros Hnd.
  apply NoDup_cons in Hnd as [Hnotin _]. apply Hnotin, list_elem_of_here.
Qed.

(** C3, amended. Where resolution succeeds, List returns the children of the
    Dir candidates, first occurrence of each name kept, followed by the
    distinct next segments of the mount points below the path.  Neither part
    repeats a name, and the whole list repeats none exactly when no name is
    in both parts. *)
Theorem List_children_then_mounts (fs : FileSystem) (path : string)
    (dirs : list string) (dss : list DataSource) :
  validatePath path = Some dirs →
  GetDSsAt fs path false true = (dss, None) →
  let children := firsts (childNames dss) in
  let mounts := firsts (mountNames dirs (view fs true)) in
  List fs path = children ++ mounts
  ∧ NoDup children ∧ NoDup mounts
  ∧ (∀ x, x ∈ children ↔
       ∃ item d, item ∈ dss ∧ asDir item = Some d ∧ x ∈ Dir_List d)
  ∧ (∀ x, x ∈ mounts ↔
       ∃ src rest, src ∈ view fs true ∧ mp src = dirs ++ x :: rest)
  ∧ (NoDup (List fs path) ↔ ∀ x, x ∈ children → x ∉ mounts).
Proof.
  intros Hv Hres children mounts.
  assert (HL : List fs path = children ++ mounts).
  { unfold List. rewrite Hres, (mountSubset_firsts _ _ _ _ Hv), List_loop_firsts.
    simpl. f_equal. apply filter_all. intros x _. set_solver. }
  split; [exact HL|].
  split; [apply NoDup_firsts|]. split; [apply NoDup_firsts|].
  split; [intros x; unfold children; by rewrite elem_of_firsts, elem_of_childNames|].
  split; [intros x; unfold mounts; by rewrite elem_of_firsts, elem_of_mountNames|].
  rewrite HL, NoDup_app. split; [tauto|].
  intros Hdisj. split; [apply NoDup_firsts|]. split; [done | apply NoDup_firsts].
Qed.

Lemma List_children_then_mounts_witness :
  List fsOverlap "a"
  = firsts (childNames [zdir [("b", zfile 1)]])
    ++ firsts (mountNames ["a"] (view fsOverlap true)).
Proof.
  destruct (List_children_then_mounts fsOverlap "a" ["a"] [zdir [("b", zfile 1)]])
    as [Hlist _].
  - vm_compute; reflexivity.
  - vm_compute; reflexivity.
  - exact Hlist.
Defined.

(** ** ListFiles *)

Lemma ListFiles_loop_not_Dir (dss : list DataSource) (acc : seen) :
  (∃ item, item ∈ dss ∧ asDir item = None) → ListFiles_loop dss acc = [].
Proof.
  revert acc. induction dss as [|x rest IH]; intros acc (item & Hin & Hd).
  - by apply elem_of_nil in Hin.
  - simpl. apply elem_of_cons in Hin as [<- | Hin].
    + by rewrite Hd.
    + destruct (asDir x); [|done]. apply IH. by exists item.
Qed.

(** C6. ListFiles breaks the rule: the candidate that is not a Dir ends the
    call with nil, and the file ["x"] of the other candidate is lost, while
    List and ListDirs skip such a candidate and go on. *)
Theorem ListFiles_non_container_ends_call :
  GetDSsAt fsMixed "a" false true = ([zdir [("x", zfile 1)]; zfile 2], None)
  ∧ ListFiles fsMixed "a" = []
  ∧ List fsMixed "a" = ["x"]
  ∧ ListFiles (Mount zeroFS "a" (zdir [("x", zfile 1)]) false).1 "a" = ["x"].
Proof. repeat split; vm_compute; reflexivity. Qed.

(** ** Paths with the same normal form *)

Lemma wrapError_same (err : option error) (p q : string) :
  sameError (wrapError err p) (wrapError err q).
Proof. by destruct err as [[a | op ospath [] | | msg]|]. Qed.

Section SameNormalForm.
Context (fs : FileSystem) (p q : string) (dirs : list string).
Hypothesis Hp : validatePath p = Some dirs.
Hypothesis Hq : validatePath q = Some dirs.

Lemma Mount_same (item : DataSource) (rw : bool) :
  (Mount fs p item rw).1 = (Mount fs q item rw).1
  ∧ sameError (Mount fs p item rw).2 (Mount fs q item rw).2.
Proof. unfold Mount. rewrite Hp, Hq. by destruct (mountable item). Qed.

Lemma Unmount_same (r : bool) : Unmount fs p r = Unmount fs q r.
Proof. unfold Unmount. by rewrite Hp, Hq. Qed.

Lemma SwapMount_same (item : DataSource) (rw : bool) :
  SwapMount fs p item rw = SwapMount fs q item rw.
Proof. unfold SwapMount. by rewrite Hp, Hq. Qed.

Lemma mountSubset_same (r : bool) : mountSubset fs p r = mountSubset fs q r.
Proof. unfold mountSubset. by rewrite Hp, Hq. Qed.

Lemma isMP_same (r : bool) : isMP fs p r = isMP fs q r.
Proof. unfold isMP. by rewrite Hp, Hq. Qed.

Lemma GetDSsAt_same (create r : bool) :
  (GetDSsAt fs p create r).1 = (GetDSsAt fs q create r).1
  ∧ sameError (GetDSsAt fs p create r).2 (GetDSsAt fs q create r).2.
Proof.
  rewrite (GetDSsAt_unfold _ _ _ _ _ Hp), (GetDSsAt_unfold _ _ _ _ _ Hq).
  cbv zeta. case_bool_decide; [done|]. by destruct (isMP_loop dirs (view fs r)).
Qed.

Lemma GetDSAt_same (create r : bool) :
  sameOutcome (GetDSAt fs p create r) (GetDSAt fs q create r).
Proof.
  unfold GetDSAt. destruct (GetDSsAt_same create r) as [Hdss Herr].
  destruct (GetDSsAt fs p create r) as [dss1 [e1|]],
           (GetDSsAt fs q create r) as [dss2 [e2|]]; simpl in *; try done.
  subst dss2. by destruct (dss1 !! 0%nat).
Qed.

Lemma Exists_same : Exists fs p = Exists fs q.
Proof.
  unfold Exists. pose proof (GetDSAt_same false true) as H.
  rewrite (isMP_same true).
  destruct (GetDSAt fs p false true) as [[i1 [e1|]]|],
           (GetDSAt fs q false true) as [[i2 [e2|]]|]; simpl in H; tauto.
Qed.

Lemma IsDir_same : IsDir fs p = IsDir fs q.
Proof.
  unfold IsDir. pose proof (GetDSAt_same false true) as H.
  rewrite (isMP_same true).
  destruct (GetDSAt fs p false true) as [[i1 [e1|]]|],
           (GetDSAt fs q false true) as [[i2 [e2|]]|]; simpl in H;
    try tauto. by destruct H as [-> _].
Qed.

Lemma Size_same : Size fs p = Size fs q.
Proof.
  unfold Size. pose proof (GetDSAt_same false true) as H.
  destruct (GetDSAt fs p false true) as [[i1 [e1|]]|],
           (GetDSAt fs q false true) as [[i2 [e2|]]|]; simpl in H;
    try tauto. by destruct H as [-> _].
Qed.

Lemma List_same : List fs p = List fs q.
Proof.
  unfold List. destruct (GetDSsAt_same false true) as [Hdss Herr].
  rewrite (mountSubset_same true).
  destruct (GetDSsAt fs p false true) as [dss1 [e1|]],
           (GetDSsAt fs q false true) as [dss2 [e2|]]; simpl in *;
    try tauto. by subst.
Qed.

Lemma ListDirs_same : ListDirs fs p = ListDirs fs q.
Proof.
  unfold ListDirs. destruct (GetDSsAt_same false true) as [Hdss Herr].
  rewrite (mountSubset_same true).
  destruct (GetDSsAt fs p false true) as [dss1 [e1|]],
           (GetDSsAt fs q false true) as [dss2 [e2|]]; simpl in *;
    try tauto. by subst.
Qed.

Lemma ListFiles_same : ListFiles fs p = ListFiles fs q.
Proof.
  unfold ListFiles. destruct (GetDSsAt_same false true) as [Hdss Herr].
  destruct (GetDSsAt fs p false true) as [dss1 [e1|]],
           (GetDSsAt fs q false true) as [dss2 [e2|]]; simpl in *;
    try tauto. by subst.
Qed.

Lemma Read_same : sameOutcome (Read fs p) (Read fs q).
Proof.
  unfold Read. pose proof (GetDSAt_same false true) as H.
  destruct (GetDSAt fs p false true) as [[i1 [e1|]]|],
           (GetDSAt fs q false true) as [[i2 [e2|]]|]; simpl in H;
    try tauto; destruct H as [-> H]; [done|].
  destruct (i2 ≫= asFile) as [f|]; [|done].
  destruct (File_Read f) as [rc err]. simpl. split; [done | apply wrapError_same].
Qed.

Lemma openForWriting_same (open : File → option WriteCloser * option error) :
  sameOutcome (openForWriting open fs p) (openForWriting open fs q).
Proof.
  unfold openForWriting. pose proof (GetDSAt_same true false) as H.
  destruct (GetDSAt fs p true false) as [[i1 [e1|]]|],
           (GetDSAt fs q true false) as [[i2 [e2|]]|]; simpl in H;
    try tauto; destruct H as [-> H]; [done|].
  destruct (i2 ≫= asFile) as [f|]; [|done].
  destruct (open f) as [wc err]. simpl. split; [done | apply wrapError_same].
Qed.

Lemma ReadAll_same : sameOutcome (ReadAll fs p) (ReadAll fs q).
Proof.
  unfold ReadAll. pose proof Read_same as H.
  destruct (Read fs p) as [[rc1 [e1|]]|], (Read fs q) as [[rc2 [e2|]]|];
    simpl in H; try tauto; destruct H as [-> H].
  - by destruct rc2.
  - destruct rc2 as [reader|]; [|done].
    destruct (rc_ReadAll reader) as [content err]. simpl.
    split; [done | apply wrapError_same].
Qed.

Lemma WriteAll_same (content : list byte) :
  match WriteAll fs p content, WriteAll fs q content with
  | Panics, Panics => True
  | Returns e1, Returns e2 => sameError e1 e2
  | _, _ => False
  end.
Proof.
  unfold WriteAll, Write. pose proof (openForWriting_same File_Write) as H.
  destruct (openForWriting File_Write fs p) as [[wc1 [e1|]]|],
           (openForWriting File_Write fs q) as [[wc2 [e2|]]|];
    simpl in H; try tauto; destruct H as [-> H].
  - by destruct wc2.
  - destruct wc2 as [writer|]; [|done]. apply wrapError_same.
Qed.

End SameNormalForm.

(** An error carries the path string as it was passed, so [Read] of ["x"]
    and of ["/x"] return errors that differ in their Path; and Delete splits
    the raw string at its last slash before any normalization, so with a
    trailing slash it looks for a child with the empty name: ["m/j"] is
    deleted, ["m/j/"] is not found. *)
Lemma same_normal_form_different_result :
  validatePath "x" = validatePath "/x"
  ∧ Read zeroFS "x" = Returns (None, Some (mkError "x" ErrNotFound None))
  ∧ Read zeroFS "/x" = Returns (None, Some (mkError "/x" ErrNotFound None))
  ∧ Read zeroFS "x" ≠ Read zeroFS "/x"
  ∧ validatePath "m/j" = validatePath "m/j/"
  ∧ Delete fsTwo "m/j" = ([CallDelete (wdirOps [("j", zfile 1)]) "j"], None)
  ∧ Delete fsTwo "m/j/" = ([], Some (mkError "m/j/" ErrNotFound None)).
Proof.
  repeat apply conj; try (vm_compute; reflexivity).
  vm_compute. discriminate.
Qed.

(** The operations that normalize their path.  For two path strings with
    the same normal form, every mount-table and facade operation other than
    Delete makes the same change of state and returns the same result, up to
    the Path field of a returned error, which holds the string as passed. *)
Lemma same_normal_form_same_behaviour (fs : FileSystem) (p q : string)
    (dirs : list string) :
  validatePath p = Some dirs →
  validatePath q = Some dirs →
  (∀ item rw, (Mount fs p item rw).1 = (Mount fs q item rw).1
              ∧ sameError (Mount fs p item rw).2 (Mount fs q item rw).2)
  ∧ (∀ r, Unmount fs p r = Unmount fs q r)
  ∧ (∀ item rw, SwapMount fs p item rw = SwapMount fs q item rw)
  ∧ (∀ r, mountSubset fs p r = mountSubset fs q r ∧ isMP fs p r = isMP fs q r)
  ∧ (∀ create r, (GetDSsAt fs p create r).1 = (GetDSsAt fs q create r).1
                 ∧ sameError (GetDSsAt fs p create r).2 (GetDSsAt fs q create r).2
                 ∧ sameOutcome (GetDSAt fs p create r) (GetDSAt fs q create r))
  ∧ (Exists fs p = Exists fs q ∧ IsDir fs p = IsDir fs q
     ∧ IsMP fs p = IsMP fs q ∧ Size fs p = Size fs q)
  ∧ (List fs p = List fs q ∧ ListDirs fs p = ListDirs fs q
     ∧ ListFiles fs p = ListFiles fs q)
  ∧ (sameOutcome (Read fs p) (Read fs q)
     ∧ sameOutcome (ReadAll fs p) (ReadAll fs q)
     ∧ sameOutcome (Write fs p) (Write fs q)
     ∧ sameOutcome (Append fs p) (Append fs q))
  ∧ (∀ content,
       match WriteAll fs p content, WriteAll fs q content with
       | Panics, Panics => True
       | Returns e1, Returns e2 => sameError e1 e2
       | _, _ => False
       end).
Proof.
  intros Hp Hq. unfold IsMP, Write, Append.
  repeat (intros; repeat apply conj);
    first [ eapply Mount_same | eapply Unmount_same | eapply SwapMount_same
          | eapply mountSubset_same | eapply isMP_same | eapply GetDSsAt_same
          | eapply GetDSAt_same | eapply Exists_same | eapply IsDir_same
          | eapply Size_same | eapply List_same | eapply ListDirs_same
          | eapply ListFiles_same | eapply Read_same | eapply ReadAll_same
          | eapply openForWriting_same | eapply WriteAll_same ];
    eassumption.
Qed.

Lemma same_normal_form_same_behaviour_witness :
  List fsAB "/a//b/" = List fsAB "a/b"
  ∧ ListDirs fsAB "/a//b/" = ListDirs fsAB "a/b"
  ∧ ListFiles fsAB "/a//b/" = ListFiles fsAB "a/b".
Proof.
  destruct (same_normal_form_same_behaviour fsAB "/a//b/" "a/b" ["a"; "b"])
    as (_ & _ & _ & _ & _ & _ & Hlists & _).
  - vm_compute; reflexivity.
  - vm_compute; reflexivity.
  - exact Hlists.
Defined.

(** C7. Delete breaks the rule.  ["m/j"] and ["m/j/"] have the same normal
    form, and resolution treats them alike, but Delete of the first calls
    the backend delete of ["j"] and succeeds, while Delete of the second
    calls nothing and fails with ErrNotFound: neither the call nor the kind
    of the outcome is the same. *)
Theorem Delete_trailing_slash_differs :
  validatePath "m/j" = Some ["m"; "j"]
  ∧ validatePath "m/j/" = Some ["m"; "j"]
  ∧ GetDSsAt fsTwo "m/j" false false = GetDSsAt fsTwo "m/j/" false false
  ∧ (Delete fsTwo "m/j").1 ≠ (Delete fsTwo "m/j/").1
  ∧ (Delete fsTwo "m/j").2 = None
  ∧ (∃ e, (Delete fsTwo "m/j/").2 = Some e ∧ Typ e = ErrNotFound)
  ∧ ¬ sameError (Delete fsTwo "m/j").2 (Delete fsTwo "m/j/").2.
Proof.
  repeat apply conj; try (vm_compute; reflexivity).
  - vm_compute. discriminate.
  - eexists. split; vm_compute; reflexivity.
  - vm_compute. tauto.
Qed.

(** * Further properties *)

(** ** Splitting and validating paths *)

Lemma ContainsAny_false (s : string) (cs : list ascii) :
  ContainsAny s cs = false ↔ ∀ c, c ∈ list_ascii_of_string s → c ∉ cs.
Proof.
  induction s as [|a s IH]; simpl.
  - split; [intros _ c Hc; by apply elem_of_nil in Hc | done].
  - case_bool_decide as Ha.
    + split; [done|]. intros H. exfalso. by apply (H a), Ha; left.
    + rewrite IH. split.
      * intros H c [->|Hc]%elem_of_cons; auto.
      * intros H c Hc. apply H. by right.
Qed.

Lemma Split_not_nil (s : string) : Split s ≠ [].
Proof.
  induction s as [|a s IH]; simpl; [done|].
  case_bool_decide; [done|]. by destruct (Split s).
Qed.

Lemma Split_chars (s seg : string) (c : ascii) :
  seg ∈ Split s → c ∈ list_ascii_of_string seg →
  c ∈ list_ascii_of_string s ∧ c ≠ slash.
Proof.
  revert seg. induction s as [|a s IH]; simpl; intros seg Hseg Hc.
  - apply list_elem_of_singleton in Hseg as ->. by apply elem_of_nil in Hc.
  - case_bool_decide as Ha.
    + apply elem_of_cons in Hseg as [-> | Hseg]; [by apply elem_of_nil in Hc|].
      destruct (IH _ Hseg Hc). split; [by right | done].
    + pose proof (Split_not_nil s) as Hnn.
      destruct (Split s) as [|h t]; [done|].
      apply elem_of_cons in Hseg as [-> | Hseg].
      * simpl in Hc. apply elem_of_cons in Hc as [-> | Hc]; [split; [by left | done]|].
        destruct (IH h (list_elem_of_here _ _) Hc). split; [by right | done].
      * destruct (IH seg) as [? ?]; [by right | done |]. split; [by right | done].
Qed.

Lemma Split_slashfree (d : string) :
  slash ∉ list_ascii_of_string d → Split d = [d].
Proof.
  induction d as [|a d IH]; simpl; intros Hd; [done|].
  apply not_elem_of_cons in Hd as [Ha Hd].
  rewrite bool_decide_false by done. by rewrite IH.
Qed.

Lemma Split_app_slash (a b : string) :
  Split (a +:+ String slash b) = Split a ++ Split b.
Proof.
  induction a as [|c a IH]; simpl.
  - reflexivity.
  - case_bool_decide; [by rewrite IH|].
    rewrite IH. pose proof (Split_not_nil a). by destruct (Split a).
Qed.

Lemma existsb_false {A : Type} (f : A → bool) (l : list A) :
  existsb f l = false ↔ ∀ x, x ∈ l → f x = false.
Proof.
  induction l as [|a l IH]; simpl.
  - split; [intros _ x Hx; by apply elem_of_nil in Hx | done].
  - rewrite orb_false_iff, IH. split.
    + intros [Ha H] x [->|Hx]%elem_of_cons; auto.
    + intros H. split; [apply H; by left | intros x Hx; apply H; by right].
Qed.

Lemma compact_nonempty (l : list string) :
  compact (λ dir, bool_decide (dir = "")) l = filter (λ d, d ≠ "") l.
Proof.
  rewrite compact_filter. apply list_filter_iff. intros d. unfold kept.
  by rewrite bool_decide_eq_false.
Qed.

(** [validatePath] succeeds exactly on the strings without reserved
    character and without a dot segment, and then drops the empty pieces. *)
Lemma validatePath_Some (p : string) (dirs : list string) :
  validatePath p = Some dirs ↔
  ContainsAny p reserved = false
  ∧ (∀ seg, seg ∈ Split p → seg ≠ ".." ∧ seg ≠ ".")
  ∧ dirs = filter (λ d, d ≠ "") (Split p).
Proof.
  unfold validatePath. case_bool_decide as Hp.
  - subst p. simpl. split.
    + intros [= <-]. split; [done|]. split; [|done].
      intros seg ->%list_elem_of_singleton. done.
    + intros (_ & _ & ->). done.
  - destruct (ContainsAny p reserved); [split; [done | by intros [? _]]|].
    rewrite compact_nonempty.
    destruct (existsb _ (Split p)) eqn:Hdots.
    + split; [done|]. intros (_ & Hno & _). exfalso.
      assert (existsb (λ dir, bool_decide (dir = ".." ∨ dir = ".")) (Split p) = false)
        as Hf; [|congruence].
      apply existsb_false. intros seg Hseg. apply bool_decide_eq_false.
      destruct (Hno seg Hseg). tauto.
    + split.
      * intros [= <-]. split; [done|]. split; [|done].
        intros seg Hseg. rewrite existsb_false in Hdots.
        specialize (Hdots seg Hseg). apply bool_decide_eq_false in Hdots. tauto.
      * by intros (_ & _ & ->).
Qed.

Lemma chars_append (a b : string) :
  list_ascii_of_string (a +:+ b) = list_ascii_of_string a ++ list_ascii_of_string b.
Proof. induction a as [|c a IH]; simpl; [done | by rewrite IH]. Qed.

Lemma chars_Join (dirs : list string) (c : ascii) :
  c ∈ list_ascii_of_string (Join dirs) →
  c = slash ∨ ∃ d, d ∈ dirs ∧ c ∈ list_ascii_of_string d.
Proof.
  induction dirs as [|d rest IH]; simpl; [by intros ?%elem_of_nil|].
  destruct rest as [|d' rest].
  - intros Hc. right. exists d. split; [by left | done].
  - rewrite chars_append. simpl.
    intros [Hc | [-> | Hc]%elem_of_cons]%elem_of_app.
    + right. exists d. split; [by left | done].
    + by left.
    + destruct (IH Hc) as [-> | (x & Hx & Hcx)]; [by left|].
      right. exists x. split; [by right | done].
Qed.

Lemma Split_Join (dirs : list string) :
  Forall validSegment dirs → dirs ≠ [] → Split (Join dirs) = dirs.
Proof.
  induction dirs as [|d rest IH]; [done|]. intros Hall _.
  apply Forall_cons in Hall as [Hd Hrest].
  assert (Hfree : slash ∉ list_ascii_of_string d).
  { intros Hin. destruct Hd as (_ & _ & _ & Hc). by destruct (Hc _ Hin). }
  simpl. destruct rest as [|d' rest].
  - by apply Split_slashfree.
  - rewrite Split_app_slash, Split_slashfree by done.
    simpl. f_equal. by apply IH.
Qed.

Lemma filter_Split_valid (p : string) :
  ContainsAny p reserved = false →
  (∀ seg, seg ∈ Split p → seg ≠ ".." ∧ seg ≠ ".") →
  Forall validSegment (filter (λ d, d ≠ "") (Split p)).
Proof.
  intros Hres Hdots.
  apply Forall_forall. intros d [Hne Hd]%list_elem_of_filter.
  destruct (Hdots d Hd) as [H2 H1].
  repeat split; try done.
  - by destruct (Split_chars p d c Hd).
  - destruct (Split_chars p d c Hd) as [Hc _]; [done|].
    by apply (proj1 (ContainsAny_false p reserved) Hres).
Qed.

Lemma slash_not_reserved : slash ∉ reserved.
Proof.
  vm_compute. intros Hin. repeat (apply elem_of_cons in Hin as [[=]|Hin]).
  by apply elem_of_nil in Hin.
Qed.

Lemma Join_validates (dirs : list string) :
  Forall validSegment dirs → dirs ≠ [] → validatePath (Join dirs) = Some dirs.
Proof.
  intros Hall Hne. apply validatePath_Some.
  rewrite Split_Join by done. rewrite Forall_forall in Hall. split; [|split].
  - apply ContainsAny_false. intros c Hc.
    destruct (chars_Join _ _ Hc) as [-> | (x & Hx & Hcx)].
    + apply slash_not_reserved.
    + destruct (Hall x Hx) as (_ & _ & _ & Hv). by destruct (Hv c Hcx).
  - intros seg Hseg. destruct (Hall seg Hseg) as (_ & ? & ? & _). done.
  - symmetry. apply filter_all. intros x Hx. by destruct (Hall x Hx).
Qed.

(** X1. Every segment [validatePath] returns is a valid name: not empty,
    not a dot name, free of slashes and reserved characters. *)
Theorem validatePath_segments (p : string) (dirs : list string) :
  validatePath p = Some dirs → Forall validSegment dirs.
Proof.
  intros (Hres & Hdots & ->)%validatePath_Some. by apply filter_Split_valid.
Qed.

Lemma validatePath_segments_witness :
  Forall validSegment ["test"; "path"; "to"; "dir"].
Proof.
  apply (validatePath_segments "/test///path//to/dir/").
  vm_compute; reflexivity.
Defined.

(** X2. A list of valid names, joined with slashes, validates to itself:
    [Join] is a right inverse of [validatePath]. *)
Theorem validatePath_Join (dirs : list string) :
  Forall validSegment dirs → validatePath (Join dirs) = Some dirs.
Proof.
  intros Hall. destruct dirs as [|d rest]; [done|]. by apply Join_validates.
Qed.

Lemma validatePath_Join_witness :
  validatePath (Join ["a"; "b c"; "d.txt"]) = Some ["a"; "b c"; "d.txt"].
Proof.
  apply validatePath_Join.
  repeat apply Forall_cons_2; [..|apply Forall_nil_2];
    (split; [done|]; split; [done|]; split; [done|]);
    intros c Hc; simpl in Hc;
    repeat (apply elem_of_cons in Hc as [->|Hc]);
    try (by apply elem_of_nil in Hc);
    (split; [done|]; vm_compute; intros Hin;
     repeat (apply elem_of_cons in Hin as [[=]|Hin]); by apply elem_of_nil in Hin).
Defined.

(** X3. Normalizing is idempotent: the canonical spelling of the segments
    of a valid path validates to the same segments. *)
Theorem validatePath_idempotent (p : string) (dirs : list string) :
  validatePath p = Some dirs → validatePath (Join dirs) = Some dirs.
Proof.
  intros (Hres & Hdots & ->)%validatePath_Some.
  pose proof (filter_Split_valid p Hres Hdots) as Hvalid.
  destruct (filter _ (Split p)) as [|d rest]; [done|]. by apply Join_validates.
Qed.

Lemma validatePath_idempotent_witness :
  validatePath (Join ["test"; "path"; "to"; "dir"])
  = Some ["test"; "path"; "to"; "dir"].
Proof.
  apply (validatePath_idempotent "/test///path//to/dir/").
  vm_compute; reflexivity.
Defined.

(** ** Splitting off the last segment *)

Lemma lastSlash_None (s : string) :
  lastSlash s = None ↔ slash ∉ list_ascii_of_string s.
Proof.
  induction s as [|c s IH]; simpl.
  - split; [intros _; apply not_elem_of_nil | done].
  - rewrite not_elem_of_cons. destruct (lastSlash s) as [[n l]|].
    + split; [done|]. intros [_ H]. by apply IH in H.
    + case_bool_decide as Hc.
      * split; [done|]. intros [H _]. by destruct H.
      * split; [intros _; split; [congruence | by apply IH] | done].
Qed.

Lemma lastSlash_Some (s n l : string) :
  lastSlash s = Some (n, l) →
  s = n +:+ String slash l ∧ slash ∉ list_ascii_of_string l.
Proof.
  revert n. induction s as [|c s IH]; simpl; intros n; [done|].
  destruct (lastSlash s) as [[n' l']|] eqn:Hs.
  - intros [= <- <-]. destruct (IH n' eq_refl) as [-> Hl]. done.
  - case_bool_decide as Hc; [|done]. intros [= <- <-]. subst c.
    split; [done|]. by apply lastSlash_None.
Qed.

Lemma LastIndexFrom_lastSlash (s : string) (i : Z) :
  (0 ≤ i)%Z →
  LastIndexFrom i s =
    match lastSlash s with
    | None => -1
    | Some (n, _) => i + Z.of_nat (String.length n)
    end.
Proof.
  revert i. induction s as [|c s IH]; intros i Hi; simpl; [done|].
  rewrite IH by lia. destruct (lastSlash s) as [[n l]|].
  - rewrite bool_decide_false by lia. simpl String.length. lia.
  - rewrite bool_decide_true by done. case_bool_decide; simpl; lia.
Qed.

Lemma substring_prefix (n rest : string) :
  substring 0 (String.length n) (n +:+ rest) = n.
Proof.
  induction n as [|c n IH]; simpl; [by destruct rest | by rewrite IH].
Qed.

Lemma substring_whole (l : string) : substring 0 (String.length l) l = l.
Proof. induction l as [|c l IH]; simpl; [done | by rewrite IH]. Qed.

Lemma substring_suffix (n l : string) (k : nat) :
  substring (String.length n + 1) k (n +:+ String slash l) = substring 0 k l.
Proof. induction n as [|c n IH]; simpl; [done | apply IH]. Qed.

Lemma length_append (a b : string) :
  String.length (a +:+ b) = (String.length a + String.length b)%nat.
Proof. induction a as [|c a IH]; simpl; [done | by rewrite IH]. Qed.

Lemma trimLastPath_lastSlash (path : string) :
  trimLastPath path =
    match lastSlash path with
    | None => ("", path)
    | Some (n, l) => (n, l)
    end.
Proof.
  unfold trimLastPath, LastIndex. rewrite LastIndexFrom_lastSlash by done.
  destruct (lastSlash path) as [[n l]|] eqn:Hs; [|done].
  destruct (lastSlash_Some _ _ _ Hs) as [-> _].
  rewrite bool_decide_false by lia.
  rewrite Z.add_0_l, Nat2Z.id.
  replace (Z.to_nat (Z.of_nat (String.length n) + 1)) with (String.length n + 1)%nat by lia.
  rewrite substring_prefix, substring_suffix, length_append. simpl.
  replace (String.length n + S (String.length l) - (String.length n + 1))%nat
    with (String.length l) by lia.
  by rewrite substring_whole.
Qed.

(** X4. [trimLastPath] cuts at the last slash and loses nothing: the second
    part has no slash, and either the path has no slash at all (it is
    returned whole, with an empty parent) or the two parts, put together
    with a slash, are the path. *)
Theorem trimLastPath_round_trip (path npath last : string) :
  trimLastPath path = (npath, last) →
  (slash ∉ list_ascii_of_string last)
  ∧ (((slash ∉ list_ascii_of_string path) ∧ npath = "" ∧ last = path)
     ∨ path = npath +:+ String slash last).
Proof.
  rewrite trimLastPath_lastSlash.
  destruct (lastSlash path) as [[n l]|] eqn:Hs.
  - intros [= <- <-]. destruct (lastSlash_Some _ _ _ Hs) as [Hp Hl]. by split; [|right].
  - intros [= <- <-]. apply lastSlash_None in Hs. split; [done | by left].
Qed.

Lemma trimLastPath_round_trip_witness :
  (slash ∉ list_ascii_of_string "c.txt")
  ∧ (((slash ∉ list_ascii_of_string "a//b/c.txt") ∧ "a//b" = "" ∧ "c.txt" = "a//b/c.txt")
     ∨ "a//b/c.txt" = "a//b" +:+ String slash "c.txt").
Proof.
  apply (trimLastPath_round_trip "a//b/c.txt" "a//b" "c.txt").
  vm_compute; reflexivity.
Defined.

Lemma ContainsAny_prefix (n rest : string) (cs : list ascii) :
  ContainsAny (n +:+ rest) cs = false → ContainsAny n cs = false.
Proof.
  rewrite !ContainsAny_false, chars_append. intros H c Hc.
  apply H, elem_of_app. by left.
Qed.

Lemma filter_nonempty_singleton (l : string) :
  filter (λ d : string, d ≠ "") [l] = if bool_decide (l = "") then [] else [l].
Proof.
  case_bool_decide as Hl.
  - by rewrite filter_cons_False by tauto.
  - by rewrite filter_cons_True by done.
Qed.

Lemma validatePath_lastSlash (path : string) (dirs : list string) :
  validatePath path = Some dirs →
  ∃ pdirs,
    validatePath (trimLastPath path).1 = Some pdirs
    ∧ dirs = pdirs ++ (if bool_decide ((trimLastPath path).2 = "") then []
                       else [(trimLastPath path).2]).
Proof.
  intros (Hres & Hdots & ->)%validatePath_Some.
  rewrite trimLastPath_lastSlash.
  destruct (lastSlash path) as [[n l]|] eqn:Hs; simpl.
  - destruct (lastSlash_Some _ _ _ Hs) as [-> Hl].
    rewrite Split_app_slash, (Split_slashfree l) in * by done.
    exists (filter (λ d, d ≠ "") (Split n)). split.
    + apply validatePath_Some. split; [by eapply ContainsAny_prefix|].
      split; [|done]. intros seg Hseg. apply Hdots, elem_of_app. by left.
    + by rewrite filter_app, filter_nonempty_singleton.
  - apply lastSlash_None in Hs. rewrite (Split_slashfree path) by done.
    exists []. split; [done|]. by rewrite filter_nonempty_singleton.
Qed.

(** X5. The parent that Delete resolves is valid whenever the path is: its
    segments are those of the path without the last one, and the final
    segment is the last segment of the path, unless the path ends with a
    slash (or is empty), where the final segment is empty and the parent
    has all the segments of the path. *)
Theorem trimLastPath_validatePath (path npath last : string) (dirs : list string) :
  validatePath path = Some dirs →
  trimLastPath path = (npath, last) →
  (last = "" → validatePath npath = Some dirs)
  ∧ (last ≠ "" → ∃ pdirs, validatePath npath = Some pdirs ∧ dirs = pdirs ++ [last]).
Proof.
  intros Hv Ht. destruct (validatePath_lastSlash path dirs Hv) as (pdirs & Hp & Hd).
  rewrite Ht in Hp, Hd. simpl in Hp, Hd. split.
  - intros Hl. rewrite bool_decide_true in Hd by done.
    rewrite app_nil_r in Hd. by subst.
  - intros Hl. rewrite bool_decide_false in Hd by done. by exists pdirs.
Qed.

Lemma trimLastPath_validatePath_witness :
  ("" = "" → validatePath "/a//b" = Some ["a"; "b"])
  ∧ ("" ≠ "" → ∃ pdirs, validatePath "/a//b" = Some pdirs ∧ ["a"; "b"] = pdirs ++ [""]).
Proof.
  apply (trimLastPath_validatePath "/a//b/" "/a//b" "" ["a"; "b"]).
  - vm_compute; reflexivity.
  - vm_compute; reflexivity.
Defined.

(** Where the rule of Delete holds: on a valid path that does not end with
    a slash the final segment is the last segment of the path, the parent
    is made of the segments before it, and Delete goes to the first
    candidate of the parent, in the write half, that is a Dir with a child
    of that name. *)
Lemma Delete_first_container_of_segments (fs : FileSystem) (path : string)
    (dirs : list string) :
  validatePath path = Some dirs →
  (trimLastPath path).2 ≠ "" →
  ∃ pdirs last,
    dirs = pdirs ++ [last]
    ∧ ∀ before item after,
        omap (resolve false pdirs) (view fs false) = before ++ item :: after →
        (∀ x, x ∈ before → ¬ hasChild last x) →
        (∀ d, asDir item = Some d → is_Some (Dir_Child d last 0) →
              Delete fs path
              = ([CallDelete d last], wrapError (Dir_Delete d last) path))
        ∧ (¬ hasChild last item → (∀ x, x ∈ after → ¬ hasChild last x) →
           Delete fs path = ([], Some (mkError path ErrNotFound None))).
Proof.
  intros Hv Hlast.
  destruct (validatePath_lastSlash path dirs Hv) as (pdirs & Hnp & Hd).
  rewrite bool_decide_false in Hd by done.
  destruct (trimLastPath path) as [npath last] eqn:Ht. simpl in *.
  exists pdirs, last. split; [done|].
  intros before item after Hc Hbefore.
  assert (Hres : GetDSsAt fs npath false false = (before ++ item :: after, None)).
  { rewrite (GetDSsAt_unfold _ _ _ _ _ Hnp). cbv zeta. rewrite Hc.
    rewrite bool_decide_true; [done | by destruct before]. }
  destruct (Delete_first_container fs path npath last _ Ht Hres) as [Hfirst Hnone].
  split.
  - intros d Hdir Hchild. by apply (Hfirst before item d after).
  - intros Hitem Hafter. apply Hnone.
    intros x [Hx | [-> | Hx]%elem_of_cons]%elem_of_app; auto.
Qed.

Lemma Delete_loop_same (p q last : string) (dss : list DataSource) :
  (Delete_loop p last dss).1 = (Delete_loop q last dss).1
  ∧ sameError (Delete_loop p last dss).2 (Delete_loop q last dss).2.
Proof.
  induction dss as [|item rest IH]; simpl; [done|].
  destruct (asDir item) as [d|]; [|done].
  case_bool_decide; [|done]. simpl. split; [done | apply wrapError_same].
Qed.

(** X6. Two spellings of a valid path that do not end with a slash are the
    same to Delete: the same backend call is made and the same error comes
    back, up to the Path field. *)
Theorem Delete_same_spelling (fs : FileSystem) (p q : string) (dirs : list string) :
  validatePath p = Some dirs →
  validatePath q = Some dirs →
  (trimLastPath p).2 ≠ "" →
  (trimLastPath q).2 ≠ "" →
  (Delete fs p).1 = (Delete fs q).1
  ∧ sameError (Delete fs p).2 (Delete fs q).2.
Proof.
  intros Hp Hq Hlp Hlq.
  destruct (validatePath_lastSlash p dirs Hp) as (pd & Hnp & Hdp).
  destruct (validatePath_lastSlash q dirs Hq) as (qd & Hnq & Hdq).
  rewrite bool_decide_false in Hdp, Hdq by done.
  rewrite Hdp in Hdq. apply app_inj_tail in Hdq as [<- Hlast].
  unfold Delete.
  destruct (trimLastPath p) as [np lp], (trimLastPath q) as [nq lq].
  simpl in *. subst lq.
  destruct (GetDSsAt_same fs np nq pd Hnp Hnq false false) as [Hdss Herr].
  destruct (GetDSsAt fs np false false) as [dss1 [e1|]],
           (GetDSsAt fs nq false false) as [dss2 [e2|]]; simpl in *; try done.
  subst dss2. apply Delete_loop_same.
Qed.

Lemma Delete_same_spelling_witness :
  (Delete fsTwo "/m//j").1 = (Delete fsTwo "m/j").1
  ∧ sameError (Delete fsTwo "/m//j").2 (Delete fsTwo "m/j").2.
Proof.
  apply (Delete_same_spelling fsTwo "/m//j" "m/j" ["m"; "j"]).
  - vm_compute; reflexivity.
  - vm_compute; reflexivity.
  - vm_compute. discriminate.
  - vm_compute. discriminate.
Defined.

(** ** The shape of reachable states *)

Lemma sublist_filter_mono {A : Type} (P : A → Prop) `{!∀ x, Decision (P x)}
    (l1 l2 : list A) :
  l1 `sublist_of` l2 → filter P l1 `sublist_of` filter P l2.
Proof.
  induction 1 as [|x l1 l2 _ IH|x l1 l2 _ IH]; [constructor | |].
  - destruct (decide (P x)).
    + rewrite !filter_cons_True by done. by constructor.
    + by rewrite !filter_cons_False.
  - destruct (decide (P x)).
    + rewrite filter_cons_True by done. by constructor.
    + by rewrite filter_cons_False.
Qed.

Lemma sublist_omap_mono {A B : Type} (f : A → option B) (l1 l2 : list A) :
  l1 `sublist_of` l2 → omap f l1 `sublist_of` omap f l2.
Proof.
  induction 1 as [|x l1 l2 _ IH|x l1 l2 _ IH]; simpl; [constructor | |].
  - destruct (f x); [by constructor | done].
  - destruct (f x); [by constructor | done].
Qed.

Lemma mountable_true (item : DataSource) :
  mountable item = true ↔ is_Some (asFile item) ∨ is_Some (asDir item).
Proof. unfold mountable. by rewrite orb_true_iff, !bool_decide_eq_true. Qed.

Lemma remount_length (dirs : list string) (new : DataSource) (st : list source)
    (sources : list nat) :
  length (remount dirs new st sources).1 = length st.
Proof.
  induction sources as [|p rest IH]; simpl; [done|].
  destruct (st !! p) as [src|]; [|done].
  destruct (matchesMP dirs (mp src)); [|done]. simpl. apply length_insert.
Qed.

Lemma remount_Forall (dirs : list string) (new : DataSource) (st : list source)
    (sources : list nat) :
  mountable new = true → Forall bindingOK st →
  Forall bindingOK (remount dirs new st sources).1.
Proof.
  intros Hnew Hst. induction sources as [|p rest IH]; simpl; [done|].
  destruct (st !! p) as [src|] eqn:Hp; [|done].
  destruct (matchesMP dirs (mp src)); [|done]. simpl.
  apply Forall_insert; [done|]. split; simpl; [by apply mountable_true|].
  rewrite Forall_forall in Hst.
  by destruct (Hst src (list_elem_of_lookup_2 _ _ _ Hp)).
Qed.

Lemma Mount_wellFormed (fs : FileSystem) (path : string) (item : DataSource)
    (rw : bool) :
  wellFormed fs → wellFormed (Mount fs path item rw).1.
Proof.
  intros (Hnd & Hlt & Hsub & Hok). unfold Mount.
  destruct (validatePath path) as [dirs|] eqn:Hv; [|done].
  destruct (mountable item) eqn:Hm; [|done]. simpl.
  repeat split; simpl.
  - apply NoDup_app. split; [done|]. split; [|apply NoDup_singleton].
    intros p Hp ->%list_elem_of_singleton. specialize (Hlt _ Hp). lia.
  - intros p [Hp | ->%list_elem_of_singleton]%elem_of_app;
      rewrite length_app; simpl; [specialize (Hlt _ Hp)|]; lia.
  - destruct rw; [by apply sublist_app | by apply sublist_inserts_r].
  - apply Forall_app. split; [done|]. apply Forall_singleton.
    split; simpl; [by apply mountable_true|].
    apply validatePath_Some in Hv as (Hres & Hdots & ->).
    by apply filter_Split_valid.
Qed.

Lemma Unmount_wellFormed (fs : FileSystem) (path : string) (r : bool) :
  wellFormed fs → wellFormed (Unmount fs path r).1.
Proof.
  intros (Hnd & Hlt & Hsub & Hok). unfold Unmount.
  destruct (validatePath path) as [dirs|]; [|done]. simpl.
  rewrite !unmount_filter. repeat split; simpl; [| | |done].
  - destruct r; [by apply NoDup_filter | done].
  - intros p Hp. apply Hlt. destruct r; [|done].
    by apply list_elem_of_filter in Hp as [_ Hp].
  - destruct r; [by apply sublist_filter_mono|].
    etrans; [apply sublist_filter | done].
Qed.

Lemma SwapMount_wellFormed (fs : FileSystem) (path : string) (item : DataSource)
    (rw : bool) :
  wellFormed fs → wellFormed (SwapMount fs path item rw).1.
Proof.
  intros (Hnd & Hlt & Hsub & Hok). unfold SwapMount.
  destruct (validatePath path) as [dirs|]; [|done].
  destruct (mountable item) eqn:Hm; [|done]. simpl.
  pose proof (remount_length dirs item (store fs) (fs_r fs)) as Hlen1.
  pose proof (remount_Forall dirs item (store fs) (fs_r fs) Hm Hok) as Hok1.
  destruct (remount dirs item (store fs) (fs_r fs)) as [st1 rtn]. simpl in *.
  repeat split; simpl; [done | | done |].
  - intros p Hp. specialize (Hlt p Hp).
    destruct rw; [rewrite remount_length|]; lia.
  - destruct rw; [by apply remount_Forall | done].
Qed.

Lemma reachable_wellFormed (fs : FileSystem) : reachable fs → wellFormed fs.
Proof.
  induction 1 as [|fs fs' _ IH Hstep].
  - repeat split; simpl; [constructor | by intros p ?%elem_of_nil | constructor | constructor].
  - destruct Hstep; [by apply Mount_wellFormed | by apply Unmount_wellFormed
                     | by apply SwapMount_wellFormed].
Qed.

Lemma wellFormed_view (fs : FileSystem) (r : bool) :
  wellFormed fs →
  Forall2 (λ p src, store fs !! p = Some src) (half fs r) (view fs r).
Proof.
  intros (Hnd & Hlt & Hsub & Hok).
  assert (Hb : ∀ p, p ∈ half fs r → (p < length (store fs))%nat).
  { intros p Hp. apply Hlt. destruct r; [done|]. by eapply elem_of_sublist. }
  unfold view. induction (half fs r) as [|p ps IH]; simpl; [constructor|].
  destruct (lookup_lt_is_Some_2 (store fs) p) as [src Hsrc];
    [apply Hb; by left|].
  rewrite Hsrc. constructor; [done|]. apply IH. intros q Hq. apply Hb. by right.
Qed.

(** X7. In every reachable state, each binding of either half holds an item
    with the File or the Dir capability and a mount point made of valid
    names. *)
Theorem reachable_bindings_sound (fs : FileSystem) (r : bool) (src : source) :
  reachable fs → src ∈ view fs r →
  (is_Some (asFile (ds src)) ∨ is_Some (asDir (ds src)))
  ∧ Forall validSegment (mp src).
Proof.
  intros (_ & _ & _ & Hok)%reachable_wellFormed Hsrc.
  unfold view in Hsrc. apply list_elem_of_omap in Hsrc as (p & _ & Hp).
  rewrite Forall_forall in Hok. apply list_elem_of_lookup_2 in Hp. by apply Hok.
Qed.

Lemma reachable_bindings_sound_witness :
  (is_Some (asFile (zfile 1)) ∨ is_Some (asDir (zfile 1)))
  ∧ Forall validSegment ["a"; "b"].
Proof.
  apply (reachable_bindings_sound fsSwapped false {| mp := ["a"; "b"]; ds := zfile 1 |}).
  - eapply reachable_step; [eapply reachable_step; [apply reachable_zero|]|].
    + apply (step_Mount zeroFS "a/b" treeX true).
    + apply (step_SwapMount fsAB "a/b" (zfile 1) false).
  - vm_compute. apply list_elem_of_here.
Defined.

(** X8. In every reachable state the write half lists its bindings in the
    order the read half lists them: the precedence among multiplexed
    bindings is the same for writing as for reading. *)
Theorem write_half_keeps_order (fs : FileSystem) :
  reachable fs →
  fs_w fs `sublist_of` fs_r fs ∧ view fs false `sublist_of` view fs true.
Proof.
  intros (_ & _ & Hsub & _)%reachable_wellFormed.
  split; [done|]. unfold view. simpl. by apply sublist_omap_mono.
Qed.

Lemma write_half_keeps_order_witness :
  fs_w fsTwo `sublist_of` fs_r fsTwo ∧ view fsTwo false `sublist_of` view fsTwo true.
Proof.
  apply (write_half_keeps_order fsTwo).
  eapply reachable_step; [eapply reachable_step; [apply reachable_zero|]|].
  - apply (step_Mount zeroFS "m" (wdir [("j", zfile 1)]) true).
  - apply (step_Mount (Mount zeroFS "m" (wdir [("j", zfile 1)]) true).1
             "m" (zdir [("k", zfile 2)]) true).
Defined.

(** ** Mount and Unmount on reachable states *)

Lemma omap_lookup_app (st extra : list source) (ps : list nat) :
  (∀ p, p ∈ ps → (p < length st)%nat) →
  omap (λ p, (st ++ extra) !! p) ps = omap (λ p, st !! p) ps.
Proof.
  induction ps as [|p ps IH]; intros Hb; csimpl; [done|].
  rewrite lookup_app_l by (apply Hb; by left).
  rewrite IH; [done|]. intros q Hq. apply Hb. by right.
Qed.

Lemma Mount_view (fs : FileSystem) (path : string) (dirs : list string)
    (item : DataSource) (rw r : bool) :
  wellFormed fs →
  validatePath path = Some dirs →
  mountable item = true →
  view (Mount fs path item rw).1 r
  = view fs r ++ (if r || rw then [{| mp := dirs; ds := item |}] else []).
Proof.
  intros (Hnd & Hlt & Hsub & Hok) Hv Hm. unfold Mount. rewrite Hv, Hm. simpl.
  assert (Hb : ∀ p, p ∈ fs_w fs → (p < length (store fs))%nat)
    by (intros p Hp; apply Hlt; by eapply elem_of_sublist).
  assert (Hnew : (store fs ++ [{| mp := dirs; ds := item |}]) !! length (store fs)
                 = Some {| mp := dirs; ds := item |})
    by (rewrite lookup_app_r, Nat.sub_diag by lia; done).
  unfold view. destruct r; simpl.
  - rewrite omap_app, omap_lookup_app by done. simpl. by rewrite Hnew.
  - destruct rw.
    + rewrite omap_app, omap_lookup_app by done. simpl. by rewrite Hnew.
    + rewrite omap_lookup_app by done. by rewrite app_nil_r.
Qed.

(** X9. On a reachable state a successful Mount puts the new binding last
    in the read half, and last in the write half when [rw] is set; the
    bindings already there keep their places. *)
Theorem Mount_appends (fs : FileSystem) (path : string) (dirs : list string)
    (item : DataSource) (rw : bool) :
  reachable fs →
  validatePath path = Some dirs →
  is_Some (asFile item) ∨ is_Some (asDir item) →
  view (Mount fs path item rw).1 true = view fs true ++ [{| mp := dirs; ds := item |}]
  ∧ view (Mount fs path item rw).1 false
    = view fs false ++ (if rw then [{| mp := dirs; ds := item |}] else []).
Proof.
  intros Hwf%reachable_wellFormed Hv Hm%mountable_true.
  split; by rewrite (Mount_view fs path dirs item rw _ Hwf Hv Hm).
Qed.

Lemma Mount_appends_witness :
  view (Mount fsAB "m" (zfile 3) false).1 true
  = view fsAB true ++ [{| mp := ["m"]; ds := zfile 3 |}]
  ∧ view (Mount fsAB "m" (zfile 3) false).1 false = view fsAB false ++ [].
Proof.
  apply (Mount_appends fsAB "m" ["m"] (zfile 3) false).
  - eapply reachable_step; [apply reachable_zero|].
    apply (step_Mount zeroFS "a/b" treeX true).
  - vm_compute; reflexivity.
  - left. simpl. eauto.
Defined.

(** X10. Mounting never takes precedence over what is mounted: on a
    reachable state, the candidates of any path after a Mount are the old
    candidates followed by at most one new one, so a path that resolved
    keeps its first item. *)
Theorem Mount_keeps_candidates (fs : FileSystem) (path q : string)
    (item : DataSource) (rw create r : bool) :
  reachable fs →
  (GetDSsAt fs q create r).1 `prefix_of` (GetDSsAt (Mount fs path item rw).1 q create r).1
  ∧ ∀ first, GetDSAt fs q create r = Returns (Some first, None) →
             GetDSAt (Mount fs path item rw).1 q create r = Returns (Some first, None).
Proof.
  intros Hwf%reachable_wellFormed.
  destruct (validatePath path) as [dirs|] eqn:Hv;
    [|unfold Mount; rewrite Hv; by split].
  destruct (mountable item) eqn:Hm;
    [|unfold Mount; rewrite Hv, Hm; by split].
  pose proof (Mount_view fs path dirs item rw r Hwf Hv Hm) as Hview.
  unfold GetDSAt, GetDSsAt.
  destruct (validatePath q) as [qd|]; [|by split].
  rewrite !GetDSsAt_loop_omap, Hview, omap_app. simpl.
  set (old := omap (resolve create qd) (view fs r)).
  set (new := omap (resolve create qd) _).
  destruct old as [|o old].
  - split; [|by destruct (isMP fs q r)].
    destruct (isMP fs q r); apply prefix_nil.
  - rewrite !bool_decide_true by done. simpl. split; [|done].
    by exists new.
Qed.

Lemma Mount_keeps_candidates_witness :
  (GetDSsAt fsAB "a/b" false true).1
    `prefix_of` (GetDSsAt (Mount fsAB "a/b" (zfile 3) true).1 "a/b" false true).1
  ∧ ∀ first, GetDSAt fsAB "a/b" false true = Returns (Some first, None) →
             GetDSAt (Mount fsAB "a/b" (zfile 3) true).1 "a/b" false true
             = Returns (Some first, None).
Proof.
  apply (Mount_keeps_candidates fsAB "a/b" "a/b" (zfile 3) true false true).
  eapply reachable_step; [apply reachable_zero|].
  apply (step_Mount zeroFS "a/b" treeX true).
Defined.

Lemma unmount_twice (st : list source) (d1 d2 : list string) (ps : list nat) :
  unmount st d1 (unmount st d2 ps) = unmount st d2 (unmount st d1 ps)
  ∧ unmount st d1 (unmount st d1 ps) = unmount st d1 ps.
Proof.
  rewrite !unmount_filter, !list_filter_filter. split.
  - apply list_filter_iff. tauto.
  - apply list_filter_iff. tauto.
Qed.

(** X11. Unmount is idempotent, and two Unmounts leave the same state in
    either order. *)
Theorem Unmount_idempotent_commutes (fs : FileSystem) (p q : string) (r r' : bool) :
  Unmount (Unmount fs p r).1 p r = Unmount fs p r
  ∧ (Unmount (Unmount fs p r).1 q r').1 = (Unmount (Unmount fs q r').1 p r).1.
Proof.
  unfold Unmount.
  destruct (validatePath p) as [dp|] eqn:Hp, (validatePath q) as [dq|] eqn:Hq;
    simpl; rewrite ?Hp, ?Hq; simpl; try done.
  - pose proof (λ ps, proj2 (unmount_twice (store fs) dp dp ps)) as Hid.
    pose proof (λ ps, proj1 (unmount_twice (store fs) dp dq ps)) as Hcomm.
    destruct r, r'; rewrite ?Hid, ?Hcomm; done.
  - pose proof (λ ps, proj2 (unmount_twice (store fs) dp dp ps)) as Hid.
    destruct r; rewrite ?Hid; done.
Qed.

(** X12. Mount followed by Unmount of the same path is a round trip: on a
    reachable state where nothing was mounted at the path, both halves list
    the bindings they listed before. *)
Theorem Mount_Unmount_round_trip (fs : FileSystem) (path : string)
    (dirs : list string) (item : DataSource) (rw r : bool) :
  reachable fs →
  validatePath path = Some dirs →
  is_Some (asFile item) ∨ is_Some (asDir item) →
  (∀ src, src ∈ view fs true → mp src ≠ dirs) →
  view (Unmount (Mount fs path item rw).1 path true).1 r = view fs r.
Proof.
  intros Hreach Hv Hm%mountable_true Hfree.
  pose proof (reachable_wellFormed fs Hreach) as Hwf.
  pose proof (Mount_view fs path dirs item rw r Hwf Hv Hm) as Hview.
  unfold Unmount. rewrite Hv. unfold view in *. simpl.
  assert (Heq : omap (λ p, store (Mount fs path item rw).1 !! p)
                  (unmount (store (Mount fs path item rw).1) dirs
                     (half (Mount fs path item rw).1 r))
                = omap (λ p, store fs !! p) (half fs r)).
  { rewrite view_unmount, Hview, filter_app.
    rewrite (filter_all _ (omap _ (half fs r))).
    - destruct (r || rw); [|by rewrite app_nil_r].
      rewrite filter_cons_False by (simpl; tauto). by rewrite app_nil_r.
    - intros src Hsrc. apply Hfree. destruct r; [done|].
      destruct Hwf as (_ & _ & Hsub & _).
      eapply elem_of_sublist; [exact Hsrc|]. by apply sublist_omap_mono. }
  by destruct r.
Qed.

Lemma Mount_Unmount_round_trip_witness :
  view (Unmount (Mount fsAB "m" (zfile 3) true).1 "m" true).1 false = view fsAB false.
Proof.
  apply (Mount_Unmount_round_trip fsAB "m" ["m"] (zfile 3) true false).
  - eapply reachable_step; [apply reachable_zero|].
    apply (step_Mount zeroFS "a/b" treeX true).
  - vm_compute; reflexivity.
  - left. simpl. eauto.
  - intros src Hsrc. vm_compute in Hsrc.
    apply list_elem_of_singleton in Hsrc as ->. discriminate.
Defined.

(** ** SwapMount *)

Lemma remount_lookup_mp (dirs : list string) (new : DataSource) (st : list source)
    (ptrs : list nat) (q : nat) :
  mp <$> (remount dirs new st ptrs).1 !! q = mp <$> st !! q.
Proof.
  induction ptrs as [|p rest IH]; simpl; [done|].
  destruct (st !! p) as [src|] eqn:Hp; [|done].
  destruct (matchesMP dirs (mp src)); [|done]. simpl.
  rewrite list_lookup_insert. case_decide as Hq; [|done].
  destruct Hq as [<- _]. by rewrite Hp.
Qed.

Lemma omap_lookup_mp (st st' : list source) (ps : list nat) :
  (∀ q, mp <$> st' !! q = mp <$> st !! q) →
  mp <$> omap (λ p, st' !! p) ps = mp <$> omap (λ p, st !! p) ps.
Proof.
  intros H. induction ps as [|p ps IH]; csimpl; [done|].
  specialize (H p).
  destruct (st' !! p) as [s'|], (st !! p) as [s|]; simpl in H; try done.
  csimpl. injection H as ->. by rewrite IH.
Qed.

Lemma omap_lookup_insert_notin (st : list source) (p : nat) (x : source)
    (ps : list nat) :
  p ∉ ps → omap (λ q, <[p:=x]> st !! q) ps = omap (λ q, st !! q) ps.
Proof.
  induction ps as [|q ps IH]; intros Hp; csimpl; [done|].
  apply not_elem_of_cons in Hp as [Hne Hp].
  rewrite list_lookup_insert_ne by done. by rewrite IH.
Qed.

Lemma remount_none (dirs : list string) (new : DataSource) (st : list source)
    (ptrs : list nat) :
  (∀ s, s ∈ omap (λ p, st !! p) ptrs → mp s ≠ dirs) →
  remount dirs new st ptrs = (st, None).
Proof.
  induction ptrs as [|p rest IH]; intros Hno; simpl; [done|].
  destruct (st !! p) as [src|] eqn:Hp.
  - rewrite (omap_cons_Some _ p src) in Hno by done.
    rewrite (proj2 (matchesMP_false dirs (mp src))) by (apply Hno; by left).
    apply IH. intros s Hs. apply Hno. by right.
  - rewrite (omap_cons_None _ p) in Hno by done. by apply IH.
Qed.

Lemma remount_first (dirs : list string) (new : DataSource) (st : list source)
    (ptrs : list nat) (before after : list source) (src : source) :
  (∀ p, p ∈ ptrs → (p < length st)%nat) →
  omap (λ p, st !! p) ptrs = before ++ src :: after →
  (∀ s, s ∈ before → mp s ≠ dirs) →
  mp src = dirs →
  ∃ ps1 p ps2,
    ptrs = ps1 ++ p :: ps2
    ∧ omap (λ q, st !! q) ps1 = before
    ∧ st !! p = Some src
    ∧ omap (λ q, st !! q) ps2 = after
    ∧ remount dirs new st ptrs
      = (<[p := {| mp := mp src; ds := new |}]> st, Some (ds src)).
Proof.
  revert before. induction ptrs as [|q qs IH]; intros before Hb Hview Hno Hsrc.
  - by destruct before.
  - destruct (lookup_lt_is_Some_2 st q) as [s Hq]; [apply Hb; by left|].
    rewrite (omap_cons_Some _ q s) in Hview by done.
    simpl. rewrite Hq. destruct before as [|b before].
    + injection Hview as -> Hafter.
      rewrite (proj2 (matchesMP_eq dirs (mp src))) by done.
      exists [], q, qs. by rewrite Hq.
    + injection Hview as -> Hrest.
      rewrite (proj2 (matchesMP_false dirs (mp b))) by (apply Hno; by left).
      destruct (IH before) as (ps1 & p & ps2 & -> & H1 & Hp & H2 & Hre); try done.
      * intros p Hp. apply Hb. by right.
      * intros x Hx. apply Hno. by right.
      * exists (q :: ps1), p, ps2. rewrite (omap_cons_Some _ q b) by done.
        by rewrite H1.
Qed.

Lemma remount_cases (dirs : list string) (new : DataSource) (st : list source)
    (ptrs : list nat) :
  (remount dirs new st ptrs).1 = st
  ∨ ∃ p s, st !! p = Some s ∧ mp s = dirs
           ∧ (remount dirs new st ptrs).1 = <[p := {| mp := mp s; ds := new |}]> st.
Proof.
  induction ptrs as [|p rest IH]; simpl; [by left|].
  destruct (st !! p) as [s|] eqn:Hp; [|done].
  destruct (matchesMP dirs (mp s)) eqn:Hm; [|done].
  right. exists p, s. by apply matchesMP_eq in Hm.
Qed.

Lemma first_match_split {A : Type} (P : A → Prop) `{!∀ x, Decision (P x)}
    (l : list A) :
  (∃ x, x ∈ l ∧ P x) →
  ∃ before x after, l = before ++ x :: after ∧ P x ∧ ∀ y, y ∈ before → ¬ P y.
Proof.
  induction l as [|a l IH]; intros (x & Hx & HP); [by apply elem_of_nil in Hx|].
  destruct (decide (P a)) as [Ha|Ha].
  - exists [], a, l. split; [done|]. split; [done|]. by intros y ?%elem_of_nil.
  - apply elem_of_cons in Hx as [-> | Hx]; [done|].
    destruct IH as (before & y & after & -> & Hy & Hb); [by exists x|].
    exists (a :: before), y, after. split; [done|]. split; [done|].
    intros z [-> | Hz]%elem_of_cons; auto.
Qed.

(** X13. SwapMount never moves a binding or changes a mount point: both
    halves keep their pointers, and list the same mount points in the same
    order. *)
Theorem SwapMount_keeps_mount_points (fs : FileSystem) (path : string)
    (new : DataSource) (rw r : bool) :
  half (SwapMount fs path new rw).1 r = half fs r
  ∧ mp <$> view (SwapMount fs path new rw).1 r = mp <$> view fs r.
Proof.
  destruct (SwapMount_halves fs path new rw) as [Hr Hw].
  assert (Hhalf : half (SwapMount fs path new rw).1 r = half fs r)
    by (by destruct r).
  split; [done|]. unfold view. rewrite Hhalf.
  apply omap_lookup_mp. intros q. unfold SwapMount.
  destruct (validatePath path) as [dirs|]; [|done].
  destruct (mountable new); [|done].
  pose proof (remount_lookup_mp dirs new (store fs) (fs_r fs) q) as H1.
  destruct (remount dirs new (store fs) (fs_r fs)) as [st1 rtn]. simpl in *.
  destruct rw; [|done]. by rewrite remount_lookup_mp.
Qed.

(** X14. On a reachable state, SwapMount of a valid path and a mountable
    item returns the item of the first binding of the read half mounted at
    that path and puts the new item in its place; the bindings before it are
    untouched, those after it keep their mount points, and without [rw]
    they are untouched too. *)
Theorem SwapMount_replaces_first (fs : FileSystem) (path : string)
    (dirs : list string) (new : DataSource) (rw : bool)
    (before after : list source) (src : source) :
  reachable fs →
  validatePath path = Some dirs →
  is_Some (asFile new) ∨ is_Some (asDir new) →
  view fs true = before ++ src :: after →
  (∀ s, s ∈ before → mp s ≠ dirs) →
  mp src = dirs →
  ∃ fs' after',
    SwapMount fs path new rw = (fs', Some (ds src))
    ∧ view fs' true = before ++ {| mp := dirs; ds := new |} :: after'
    ∧ mp <$> after' = mp <$> after
    ∧ (rw = false → after' = after).
Proof.
  intros Hwf%reachable_wellFormed Hv Hm%mountable_true Hview Hno Hsrc.
  destruct Hwf as (Hnd & Hlt & Hsub & Hok).
  destruct (remount_first dirs new (store fs) (fs_r fs) before after src)
    as (ps1 & p & ps2 & Hptrs & H1 & Hp & H2 & Hre); try done.
  rewrite Hptrs in Hnd. apply NoDup_app in Hnd as (_ & Hp1 & Hnd2).
  apply NoDup_cons in Hnd2 as [Hp2 _].
  assert (Hp1' : p ∉ ps1) by (intros Hin; apply (Hp1 p Hin); by left).
  assert (Hplt : (p < length (store fs))%nat) by by eapply lookup_lt_Some.
  set (x := {| mp := mp src; ds := new |}) in *.
  set (st1 := <[p:=x]> (store fs)) in *.
  assert (Hst1p : st1 !! p = Some x) by by apply list_lookup_insert_eq.
  assert (Hst1a : omap (λ q, st1 !! q) ps1 = before)
    by (unfold st1; by rewrite omap_lookup_insert_notin).
  assert (Hst1b : omap (λ q, st1 !! q) ps2 = after)
    by (unfold st1; by rewrite omap_lookup_insert_notin).
  unfold SwapMount. rewrite Hv, Hm, Hre. simpl. destruct rw.
  - exists {| store := (remount dirs new st1 (fs_w fs)).1;
              fs_r := fs_r fs; fs_w := fs_w fs |},
           (omap (λ q, (remount dirs new st1 (fs_w fs)).1 !! q) ps2).
    split; [done|]. split; [|split; [|done]].
    + unfold view. simpl. rewrite Hptrs, omap_app.
      destruct (remount_cases dirs new st1 (fs_w fs)) as [-> | (p' & s' & Hp' & Hs' & ->)].
      * rewrite Hst1a, (omap_cons_Some _ p x) by done. by rewrite <-Hsrc.
      * assert (Hp'1 : p' ∉ ps1).
        { intros Hin. apply (Hno s'); [|done]. rewrite <-Hst1a.
          apply list_elem_of_omap. by exists p'. }
        rewrite omap_lookup_insert_notin, Hst1a by done.
        rewrite (omap_cons_Some _ p x); [by rewrite <-Hsrc|].
        rewrite list_lookup_insert. case_decide as Hc; [|done].
        destruct Hc as [-> _]. rewrite Hst1p in Hp'. injection Hp' as <-. done.
    + rewrite <-Hst1b. apply omap_lookup_mp. intros q. apply remount_lookup_mp.
  - exists {| store := st1; fs_r := fs_r fs; fs_w := fs_w fs |}, after.
    split; [done|]. split; [|done].
    unfold view. simpl. rewrite Hptrs, omap_app, Hst1a.
    rewrite (omap_cons_Some _ p x) by done. by rewrite Hst1b, <-Hsrc.
Qed.

Lemma SwapMount_replaces_first_witness :
  ∃ fs' after',
    SwapMount fsTwo "m" (zfile 9) true = (fs', Some (wdir [("j", zfile 1)]))
    ∧ view fs' true = [] ++ {| mp := ["m"]; ds := zfile 9 |} :: after'
    ∧ mp <$> after' = mp <$> [{| mp := ["m"]; ds := zdir [("k", zfile 2)] |}]
    ∧ (true = false → after' = [{| mp := ["m"]; ds := zdir [("k", zfile 2)] |}]).
Proof.
  apply (SwapMount_replaces_first fsTwo "m" ["m"] (zfile 9) true []
           [{| mp := ["m"]; ds := zdir [("k", zfile 2)] |}]
           {| mp := ["m"]; ds := wdir [("j", zfile 1)] |}).
  - eapply reachable_step; [eapply reachable_step; [apply reachable_zero|]|].
    + apply (step_Mount zeroFS "m" (wdir [("j", zfile 1)]) true).
    + apply (step_Mount (Mount zeroFS "m" (wdir [("j", zfile 1)]) true).1
               "m" (zdir [("k", zfile 2)]) true).
  - vm_compute; reflexivity.
  - left. simpl. eauto.
  - vm_compute; reflexivity.
  - by intros s ?%elem_of_nil.
  - reflexivity.
Defined.

(** X15. On a reachable state SwapMount returns nil exactly when the path
    is invalid, the item has neither capability, or no binding of the read
    half is mounted at the path; and then the state is unchanged. *)
Theorem SwapMount_nil (fs : FileSystem) (path : string) (new : DataSource)
    (rw : bool) :
  reachable fs →
  ((SwapMount fs path new rw).2 = None ↔
   validatePath path = None
   ∨ mountable new = false
   ∨ ∃ dirs, validatePath path = Some dirs
             ∧ ∀ s, s ∈ view fs true → mp s ≠ dirs)
  ∧ ((SwapMount fs path new rw).2 = None → (SwapMount fs path new rw).1 = fs).
Proof.
  intros Hreach. pose proof (reachable_wellFormed fs Hreach) as Hwf.
  assert (Hnone : ∀ dirs, validatePath path = Some dirs → mountable new = true →
            (∀ s, s ∈ view fs true → mp s ≠ dirs) →
            SwapMount fs path new rw = (fs, None)).
  { intros dirs Hv Hm Hno. unfold SwapMount. rewrite Hv, Hm. simpl.
    rewrite (remount_none dirs new (store fs) (fs_r fs)) by done.
    rewrite (remount_none dirs new (store fs) (fs_w fs)).
    - destruct rw, fs; done.
    - intros s Hs. apply Hno. destruct Hwf as (_ & _ & Hsub & _).
      eapply elem_of_sublist; [exact Hs|]. by apply sublist_omap_mono. }
  assert (Hiff : (SwapMount fs path new rw).2 = None ↔
     validatePath path = None ∨ mountable new = false
     ∨ ∃ dirs, validatePath path = Some dirs ∧ ∀ s, s ∈ view fs true → mp s ≠ dirs).
  { split.
    - intros Hnil.
      destruct (validatePath path) as [dirs|] eqn:Hv; [|by left].
      destruct (mountable new) eqn:Hm; [|by right; left].
      right; right. exists dirs. split; [done|]. intros s Hs Hmp.
      destruct (first_match_split (λ s, mp s = dirs) (view fs true))
        as (before & src & after & Hview & Hsrc & Hb); [by exists s|].
      destruct Hwf as (Hnd & Hlt & Hsub & Hok).
      destruct (remount_first dirs new (store fs) (fs_r fs) before after src)
        as (ps1 & p & ps2 & _ & _ & _ & _ & Hre); try done.
      unfold SwapMount in Hnil. rewrite Hv, Hm, Hre in Hnil. done.
    - intros [Hv | [Hm | (dirs & Hv & Hno)]].
      + unfold SwapMount. by rewrite Hv.
      + unfold SwapMount. destruct (validatePath path); [by rewrite Hm | done].
      + destruct (mountable new) eqn:Hm.
        * by rewrite (Hnone dirs).
        * unfold SwapMount. by rewrite Hv, Hm. }
  split; [exact Hiff|]. intros Hnil. apply Hiff in Hnil.
  destruct Hnil as [Hv | [Hm | (dirs & Hv & Hno)]].
  - unfold SwapMount. by rewrite Hv.
  - unfold SwapMount. destruct (validatePath path); [by rewrite Hm | done].
  - destruct (mountable new) eqn:Hm.
    + by rewrite (Hnone dirs).
    + unfold SwapMount. by rewrite Hv, Hm.
Qed.

Lemma SwapMount_nil_witness :
  ((SwapMount fsAB "a" (zfile 1) true).2 = None ↔
   validatePath "a" = None
   ∨ mountable (zfile 1) = false
   ∨ ∃ dirs, validatePath "a" = Some dirs
             ∧ ∀ s, s ∈ view fsAB true → mp s ≠ dirs)
  ∧ ((SwapMount fsAB "a" (zfile 1) true).2 = None
     → (SwapMount fsAB "a" (zfile 1) true).1 = fsAB).
Proof.
  apply (SwapMount_nil fsAB "a" (zfile 1) true).
  eapply reachable_step; [apply reachable_zero|].
  apply (step_Mount zeroFS "a/b" treeX true).
Defined.

(** ** Resolution *)

Lemma resolve_Some (create : bool) (dirs : list string) (src : source)
    (item : DataSource) :
  resolve create dirs src = Some item ↔
  ∃ rest, dirs = mp src ++ rest ∧ walk create (ds src) rest = Some item.
Proof.
  unfold resolve. destruct (underMP (mp src) dirs) as [rest|] eqn:Hu.
  - apply underMP_Some in Hu. split; [by exists rest|].
    intros (rest' & Heq & Hw). rewrite Hu in Heq. by apply app_inv_head in Heq as ->.
  - split; [done|]. intros (rest & Heq & _).
    apply underMP_Some in Heq. congruence.
Qed.

(** X16. Multiplexing is first match wins: GetDSAt returns the item of the
    first binding, in mount order, that resolves the path; that binding is
    mounted at a prefix of the path, and the item is reached from the
    mounted one by walking the rest of the segments. *)
Theorem GetDSAt_first_match (fs : FileSystem) (path : string) (create r : bool)
    (dirs : list string) (before after : list source) (src : source)
    (item : DataSource) :
  validatePath path = Some dirs →
  view fs r = before ++ src :: after →
  (∀ s, s ∈ before → resolve create dirs s = None) →
  resolve create dirs src = Some item →
  GetDSAt fs path create r = Returns (Some item, None)
  ∧ ∃ rest, dirs = mp src ++ rest ∧ walk create (ds src) rest = Some item.
Proof.
  intros Hv Hview Hno Hsrc. split; [|by apply resolve_Some].
  unfold GetDSAt. rewrite (GetDSsAt_unfold _ _ _ _ _ Hv). cbv zeta.
  rewrite Hview, omap_app.
  rewrite (proj2 (omap_nil_None (resolve create dirs) before)) by done.
  rewrite (omap_cons_Some _ src item) by done. reflexivity.
Qed.

Lemma GetDSAt_first_match_witness :
  GetDSAt fsTwo "m/k" false true = Returns (Some (zfile 2), None)
  ∧ ∃ rest, ["m"; "k"] = ["m"] ++ rest
            ∧ walk false (zdir [("k", zfile 2)]) rest = Some (zfile 2).
Proof.
  apply (GetDSAt_first_match fsTwo "m/k" false true ["m"; "k"]
           [{| mp := ["m"]; ds := wdir [("j", zfile 1)] |}] []
           {| mp := ["m"]; ds := zdir [("k", zfile 2)] |} (zfile 2)).
  - vm_compute; reflexivity.
  - vm_compute; reflexivity.
  - intros s ->%list_elem_of_singleton. reflexivity.
  - reflexivity.
Defined.

Lemma underMP_app (mp dirs more : list string) :
  (length mp ≤ length dirs)%nat →
  underMP mp (dirs ++ more) = (λ rest, rest ++ more) <$> underMP mp dirs.
Proof.
  revert dirs. induction mp as [|m mp IH]; intros dirs Hlen; simpl; [done|].
  destruct dirs as [|d dirs]; simpl in *; [lia|].
  case_bool_decide; [done|]. apply IH. lia.
Qed.

Lemma walk_app (cur : DataSource) (rest more : list string) :
  walk false cur (rest ++ more) = walk false cur rest ≫= λ item, walk false item more.
Proof.
  revert cur. induction rest as [|d rest IH]; intros cur; simpl; [done|].
  destruct (asDir cur) as [pdir|]; [|done].
  unfold createHint. simpl.
  destruct (Dir_Child pdir d CreateNone) as [child|]; [apply IH | done].
Qed.

(** X17. Resolution without creation goes down one segment at a time: for
    a binding mounted no deeper than [dirs], resolving [dirs ++ more] is
    resolving [dirs] and then walking [more] from the item found. *)
Theorem resolve_extends (src : source) (dirs more : list string) :
  (length (mp src) ≤ length dirs)%nat →
  resolve false (dirs ++ more) src
  = resolve false dirs src ≫= λ item, walk false item more.
Proof.
  intros Hlen. unfold resolve. rewrite underMP_app by done.
  destruct (underMP (mp src) dirs) as [rest|]; simpl; [apply walk_app | done].
Qed.

Lemma resolve_extends_witness :
  resolve false (["a"; "b"; "x"] ++ ["y.txt"]) {| mp := ["a"; "b"]; ds := treeX |}
  = resolve false ["a"; "b"; "x"] {| mp := ["a"; "b"]; ds := treeX |}
    ≫= λ item, walk false item ["y.txt"].
Proof.
  apply (resolve_extends {| mp := ["a"; "b"]; ds := treeX |} ["a"; "b"; "x"] ["y.txt"]).
  simpl. lia.
Defined.

(** ** Errors *)

(** X18. wrapError returns nil only for nil; it keeps the type of an error
    that is already an [*Error] (so a backend's ErrReadOnly stays
    ErrReadOnly), turns a PathError of [os.ErrNotExist] into ErrNotFound,
    and wrapping a wrapped error again only replaces the path. *)
Theorem wrapError_rewrap (err : option error) (p q : string) :
  (wrapError err p = None ↔ err = None)
  ∧ (∀ typ, wrapError (Some (NewError typ)) p = Some (mkError p typ None))
  ∧ (∀ op ospath, wrapError (Some (PathError op ospath ErrNotExist)) p
                  = Some (mkError p ErrNotFound None))
  ∧ wrapError (AxisError <$> wrapError err p) q = wrapError err q.
Proof.
  split; [|split; [done|split; [done|]]].
  - destruct err as [[a | op ospath [] | | msg]|]; simpl; split; done.
  - by destruct err as [[a | op ospath [] | | msg]|].
Qed.

(** ** Mount-point subsets *)

Lemma GetDSsAt_ok_nonempty (fs : FileSystem) (path : string) (create r : bool)
    (dss : list DataSource) :
  GetDSsAt fs path create r = (dss, None) → dss ≠ [].
Proof.
  unfold GetDSsAt. destruct (validatePath path) as [dirs|]; [|done].
  case_bool_decide as Hne; [by intros [= <-]|].
  by destruct (isMP fs path r).
Qed.

Lemma GetDSAt_ok (fs : FileSystem) (path : string) (create r : bool)
    (dss : list DataSource) :
  GetDSsAt fs path create r = (dss, None) →
  ∃ first, dss !! 0%nat = Some first
           ∧ GetDSAt fs path create r = Returns (Some first, None).
Proof.
  intros H. pose proof (GetDSsAt_ok_nonempty _ _ _ _ _ H) as Hne.
  unfold GetDSAt. rewrite H. destruct dss as [|first dss]; [done|].
  by exists first.
Qed.

Lemma firsts_nil (l : list string) : firsts l = [] ↔ l = [].
Proof. destruct l; simpl; split; done. Qed.

Lemma isMP_loop_mountNames (dirs : list string) (sources : list source) :
  isMP_loop dirs sources = true ↔ mountNames dirs sources ≠ [].
Proof.
  unfold mountNames. induction sources as [|src rest IH]; csimpl; [done|].
  destruct (nextSegment dirs (mp src)); [done | exact IH].
Qed.

Lemma isMP_true (fs : FileSystem) (path : string) (r : bool) :
  isMP fs path r = true ↔ mountSubset fs path r ≠ [].
Proof.
  unfold isMP. destruct (validatePath path) as [dirs|] eqn:Hv.
  - by rewrite (mountSubset_firsts _ _ _ _ Hv), isMP_loop_mountNames, firsts_nil.
  - unfold mountSubset. by rewrite Hv.
Qed.

(** X19. The two mount-point-subset queries agree: [isMP] answers true
    exactly when [mountSubset] returns at least one name, and the names
    [mountSubset] returns are distinct. *)
Theorem isMP_mountSubset (fs : FileSystem) (path : string) (r : bool) :
  (isMP fs path r = true ↔ mountSubset fs path r ≠ [])
  ∧ NoDup (mountSubset fs path r).
Proof.
  split; [apply isMP_true|].
  destruct (validatePath path) as [dirs|] eqn:Hv.
  - rewrite (mountSubset_firsts _ _ _ _ Hv). apply NoDup_firsts.
  - unfold mountSubset. rewrite Hv. constructor.
Qed.

Lemma elem_of_mountSubset (fs : FileSystem) (path : string) (r : bool)
    (dirs : list string) (x : string) :
  validatePath path = Some dirs →
  x ∈ mountSubset fs path r ↔
  ∃ src rest, src ∈ view fs r ∧ mp src = dirs ++ x :: rest.
Proof.
  intros Hv. by rewrite (mountSubset_firsts _ _ _ _ Hv), elem_of_firsts, elem_of_mountNames.
Qed.

Lemma List_ends_with_mountSubset (fs : FileSystem) (path : string) :
  (∃ l, List fs path = l ++ mountSubset fs path true)
  ∧ (∃ l, ListDirs fs path = l ++ mountSubset fs path true).
Proof.
  unfold List, ListDirs.
  destruct (GetDSsAt fs path false true) as [dss [e|]]; split;
    first [by exists [] | by eexists].
Qed.

(** X20. Every binding mounted below a valid path shows in the listing of
    that path: the segment that follows the path in its mount point is
    among the names List and ListDirs return, whatever is or is not mounted
    at the path itself. *)
Theorem mount_points_are_listed (fs : FileSystem) (parent name : string)
    (pdirs rest : list string) (src : source) :
  validatePath parent = Some pdirs →
  src ∈ view fs true →
  mp src = pdirs ++ name :: rest →
  name ∈ List fs parent ∧ name ∈ ListDirs fs parent
  ∧ IsMP fs parent = true ∧ Exists fs parent = Returns true.
Proof.
  intros Hv Hsrc Hmp.
  assert (Hin : name ∈ mountSubset fs parent true)
    by (apply (elem_of_mountSubset _ _ _ _ _ Hv); by exists src, rest).
  assert (Hmp' : isMP fs parent true = true).
  { apply isMP_true. intros Hnil. rewrite Hnil in Hin.
    by apply elem_of_nil in Hin. }
  destruct (List_ends_with_mountSubset fs parent) as [[l1 ->] [l2 ->]].
  split; [apply elem_of_app; by right|]. split; [apply elem_of_app; by right|].
  split; [done|]. unfold Exists.
  destruct (GetDSsAt fs parent false true) as [dss [e|]] eqn:Hres.
  - unfold GetDSAt. by rewrite Hres, Hmp'.
  - destruct (GetDSAt_ok _ _ _ _ _ Hres) as (first & _ & ->). done.
Qed.

Lemma mount_points_are_listed_witness :
  "a" ∈ List fsAB "" ∧ "a" ∈ ListDirs fsAB ""
  ∧ IsMP fsAB "" = true ∧ Exists fsAB "" = Returns true.
Proof.
  apply (mount_points_are_listed fsAB "" "a" [] ["b"] {| mp := ["a"; "b"]; ds := treeX |}).
  - vm_compute; reflexivity.
  - vm_compute. apply list_elem_of_here.
  - reflexivity.
Defined.

(** ** Queries on paths that do not resolve *)

(** X21. On an invalid path nothing is touched and every answer is
    negative: the three mount-table operations leave the state as it is,
    the queries answer false, -1 or nil, and the stream operations fail with
    ErrBadPath; no call panics. *)
Theorem invalid_path_is_refused (fs : FileSystem) (path : string) :
  validatePath path = None →
  let bad := Some (mkError path ErrBadPath None) in
  (∀ item rw, Mount fs path item rw = (fs, bad))
  ∧ (∀ r, Unmount fs path r = (fs, bad))
  ∧ (∀ item rw, SwapMount fs path item rw = (fs, None))
  ∧ (∀ create r, GetDSsAt fs path create r = ([], bad)
                 ∧ GetDSAt fs path create r = Returns (None, bad))
  ∧ (∀ r, isMP fs path r = false ∧ mountSubset fs path r = [])
  ∧ (Exists fs path = Returns false ∧ IsDir fs path = Returns false
     ∧ Size fs path = Returns (-1))
  ∧ (List fs path = [] ∧ ListDirs fs path = [] ∧ ListFiles fs path = [])
  ∧ (Read fs path = Returns (None, bad) ∧ ReadAll fs path = Returns ([], bad)
     ∧ Write fs path = Returns (None, bad) ∧ Append fs path = Returns (None, bad)
     ∧ ∀ content, WriteAll fs path content = Returns bad).
Proof.
  intros Hv bad.
  unfold Exists, IsDir, Size, List, ListDirs, ListFiles, ReadAll, Read, WriteAll,
    Write, Append, openForWriting, GetDSAt, GetDSsAt, isMP, mountSubset,
    Mount, Unmount, SwapMount.
  rewrite Hv. simpl. repeat split.
Qed.

Lemma invalid_path_is_refused_witness :
  Exists fsAB "a/../b" = Returns false
  ∧ IsDir fsAB "a/../b" = Returns false
  ∧ Size fsAB "a/../b" = Returns (-1).
Proof.
  destruct (invalid_path_is_refused fsAB "a/../b") as (_ & _ & _ & _ & _ & H & _).
  - vm_compute; reflexivity.
  - exact H.
Defined.

(** X22. A path for which resolution fails with ErrBadAction is a pure
    mount-point subset: it exists, counts as a directory, lists exactly the
    (at least one) mount-point names below it, has no files and no size,
    and cannot be read. *)
Theorem BadAction_is_mount_subset (fs : FileSystem) (path : string) (e : Error) :
  (GetDSsAt fs path false true).2 = Some e →
  Typ e = ErrBadAction →
  Exists fs path = Returns true
  ∧ IsDir fs path = Returns true
  ∧ List fs path = mountSubset fs path true
  ∧ ListDirs fs path = mountSubset fs path true
  ∧ mountSubset fs path true ≠ []
  ∧ ListFiles fs path = []
  ∧ Size fs path = Returns (-1)
  ∧ Read fs path = Returns (None, Some (mkError path ErrBadAction None)).
Proof.
  intros He Hty.
  assert (Hres : GetDSsAt fs path false true = ([], Some (mkError path ErrBadAction None))
                 ∧ isMP fs path true = true).
  { revert He. unfold GetDSsAt. destruct (validatePath path) as [dirs|].
    - case_bool_decide; [done|].
      destruct (isMP fs path true); simpl; intros [= <-]; done.
    - simpl. intros [= <-]. done. }
  destruct Hres as [Hres Hmp].
  unfold Exists, IsDir, List, ListDirs, ListFiles, Size, Read, GetDSAt.
  rewrite Hres, Hmp. simpl. repeat split. by apply isMP_true.
Qed.

Lemma BadAction_is_mount_subset_witness :
  Exists fsAB "a" = Returns true
  ∧ IsDir fsAB "a" = Returns true
  ∧ List fsAB "a" = mountSubset fsAB "a" true
  ∧ ListDirs fsAB "a" = mountSubset fsAB "a" true
  ∧ mountSubset fsAB "a" true ≠ []
  ∧ ListFiles fsAB "a" = []
  ∧ Size fsAB "a" = Returns (-1)
  ∧ Read fsAB "a" = Returns (None, Some (mkError "a" ErrBadAction None)).
Proof.
  apply (BadAction_is_mount_subset fsAB "a" (mkError "a" ErrBadAction None)).
  - vm_compute; reflexivity.
  - reflexivity.
Defined.

(** ** ListDirs and ListFiles *)

Lemma probe_items_sub (wanted : DataSource → bool) (d : Dir DataSource)
    (children : list string) (have : gset string) (rtn : list string) :
  ∃ l, probe_items wanted d children (have, rtn)
       = (list_to_set children ∪ have, rtn ++ l)
       ∧ l `sublist_of` filter (λ y, y ∉ have) (firsts children).
Proof.
  revert have rtn. induction children as [|x rest IH]; intros have rtn; simpl.
  - exists []. rewrite app_nil_r. split; [f_equal; set_solver | constructor].
  - assert (Hf : x ∉ have →
        filter (λ y, y ∉ have) (filter (λ y, y ≠ x) (firsts rest))
        = filter (λ y, y ∉ {[x]} ∪ have) (firsts rest))
      by (intros _; apply filter_twice; intros y; set_solver).
    assert (Hg : x ∈ have →
        filter (λ y, y ∉ have) (filter (λ y, y ≠ x) (firsts rest))
        = filter (λ y, y ∉ have) (firsts rest))
      by (intros Hx; apply filter_twice; intros y; set_solver).
    case_bool_decide as Hx.
    + rewrite filter_cons_True, Hf by done.
      destruct (Dir_Child d x 0) as [cds|]; [destruct (wanted cds)|].
      * destruct (IH ({[x]} ∪ have) (rtn ++ [x])) as (l & -> & Hl).
        exists (x :: l). rewrite <-app_assoc. simpl.
        split; [f_equal; set_solver | by constructor].
      * destruct (IH ({[x]} ∪ have) rtn) as (l & -> & Hl).
        exists l. split; [f_equal; set_solver | by constructor].
      * destruct (IH ({[x]} ∪ have) rtn) as (l & -> & Hl).
        exists l. split; [f_equal; set_solver | by constructor].
    + rewrite filter_cons_False, Hg by tauto.
      destruct (IH have rtn) as (l & -> & Hl).
      exists l. split; [f_equal; set_solver | done].
Qed.

Lemma after_first_Dir (L rest : list string) (have : gset string)
    (l1 l2 : list string) :
  l1 `sublist_of` filter (λ y, y ∉ have) (firsts L) →
  l2 `sublist_of` filter (λ y, y ∉ list_to_set L ∪ have) (firsts rest) →
  l1 ++ l2 `sublist_of` filter (λ y, y ∉ have) (firsts (L ++ rest)).
Proof.
  intros H1 H2. rewrite firsts_app, filter_app. apply sublist_app; [done|].
  rewrite (filter_twice _ _ (λ y, y ∉ list_to_set L ∪ have)); [done|].
  intros y. set_solver.
Qed.

Lemma ListDirs_loop_sub (dss : list DataSource) (have : gset string)
    (rtn : list string) :
  ∃ l, (ListDirs_loop dss (have, rtn)).2 = rtn ++ l
       ∧ (ListDirs_loop dss (have, rtn)).1 = list_to_set (childNames dss) ∪ have
       ∧ l `sublist_of` filter (λ y, y ∉ have) (firsts (childNames dss)).
Proof.
  revert have rtn. induction dss as [|item rest IH]; intros have rtn.
  - exists []. simpl. rewrite app_nil_r. split; [done|]. split; [set_solver | constructor].
  - unfold childNames. simpl. destruct (asDir item) as [d|]; simpl; [|apply IH].
    fold (childNames rest).
    destruct (probe_items_sub isDirItem d (Dir_List d) have rtn) as (l1 & -> & Hl1).
    destruct (IH (list_to_set (Dir_List d) ∪ have) (rtn ++ l1)) as (l2 & -> & -> & Hl2).
    exists (l1 ++ l2). rewrite <-app_assoc. split; [done|].
    split; [set_solver | by apply after_first_Dir].
Qed.

Lemma ListFiles_loop_sub (dss : list DataSource) (have : gset string)
    (rtn : list string) :
  ListFiles_loop dss (have, rtn) = []
  ∨ ∃ l, ListFiles_loop dss (have, rtn) = rtn ++ l
         ∧ l `sublist_of` filter (λ y, y ∉ have) (firsts (childNames dss)).
Proof.
  revert have rtn. induction dss as [|item rest IH]; intros have rtn.
  - right. exists []. simpl. rewrite app_nil_r. split; [done | constructor].
  - unfold childNames. simpl. destruct (asDir item) as [d|]; simpl; [|by left].
    fold (childNames rest).
    destruct (probe_items_sub isFileItem d (Dir_List d) have rtn) as (l1 & -> & Hl1).
    destruct (IH (list_to_set (Dir_List d) ∪ have) (rtn ++ l1)) as [-> | (l2 & -> & Hl2)];
      [by left|].
    right. exists (l1 ++ l2). rewrite <-app_assoc. split; [done|].
    by apply after_first_Dir.
Qed.

(** X23. ListFiles and ListDirs select from what List returns and keep its
    order: List is a list of distinct child names followed by the
    mount-point names; ListFiles is a subsequence of the child names (so it
    never repeats a name), and ListDirs is a subsequence of the child names
    followed by the same mount-point names. *)
Theorem ListFiles_ListDirs_select (fs : FileSystem) (path : string) :
  ∃ children dirNames,
    List fs path = children ++ mountSubset fs path true
    ∧ NoDup children
    ∧ ListFiles fs path `sublist_of` children
    ∧ ListDirs fs path = dirNames ++ mountSubset fs path true
    ∧ dirNames `sublist_of` children.
Proof.
  unfold List, ListFiles, ListDirs.
  destruct (GetDSsAt fs path false true) as [dss [e|]].
  - exists [], []. repeat split; constructor.
  - exists (firsts (childNames dss)).
    destruct (ListDirs_loop_sub dss ∅ []) as (l & Hl & _ & Hsub).
    rewrite filter_all in Hsub by (intros x _; set_solver). exists l.
    rewrite List_loop_firsts, Hl. simpl.
    rewrite filter_all by (intros x _; set_solver).
    split; [done|]. split; [apply NoDup_firsts|]. split; [|done].
    destruct (ListFiles_loop_sub dss ∅ []) as [-> | (l' & -> & Hl')].
    + apply sublist_nil_l.
    + by rewrite filter_all in Hl' by (intros x _; set_solver).
Qed.

(** ** Delete and the write half *)

Lemma Delete_loop_cases (path last : string) (dss : list DataSource) :
  Delete_loop path last dss = ([], Some (mkError path ErrNotFound None))
  ∨ ∃ item d,
      item ∈ dss ∧ asDir item = Some d ∧ is_Some (Dir_Child d last 0)
      ∧ Delete_loop path last dss
        = ([CallDelete d last], wrapError (Dir_Delete d last) path).
Proof.
  induction dss as [|item rest IH]; simpl; [by left|].
  assert (Hrest : Delete_loop path last rest = ([], Some (mkError path ErrNotFound None))
    ∨ ∃ item' d, item' ∈ item :: rest ∧ asDir item' = Some d
        ∧ is_Some (Dir_Child d last 0)
        ∧ Delete_loop path last rest
          = ([CallDelete d last], wrapError (Dir_Delete d last) path)).
  { destruct IH as [? | (i & d & Hi & ? & ? & ?)]; [by left|].
    right. exists i, d. split; [by right | done]. }
  destruct (asDir item) as [d|] eqn:Hd; [|done].
  case_bool_decide as Hc; [|done].
  right. exists item, d. split; [by left | done].
Qed.

Lemma GetDSsAt_from_view (fs : FileSystem) (path : string) (create r : bool)
    (item : DataSource) :
  item ∈ (GetDSsAt fs path create r).1 →
  ∃ src rest, src ∈ view fs r ∧ walk create (ds src) rest = Some item.
Proof.
  unfold GetDSsAt. destruct (validatePath path) as [dirs|]; [|by intros ?%elem_of_nil].
  rewrite GetDSsAt_loop_omap. simpl.
  assert (Hin : item ∈ omap (resolve create dirs) (view fs r) →
                ∃ src rest, src ∈ view fs r ∧ walk create (ds src) rest = Some item).
  { intros (src & Hsrc & (rest & _ & Hw)%resolve_Some)%list_elem_of_omap.
    by exists src, rest. }
  case_bool_decide; [done|]. destruct (isMP fs path r); by intros ?%elem_of_nil.
Qed.

(** X24. Delete calls a backend at most once, and only a Dir reached from a
    binding of the write half that has the child; it returns that call's
    wrapped outcome.  When it calls nothing it returns an error, so a nil
    error always means that one backend delete was made and succeeded. *)
Theorem Delete_one_call_in_write_half (fs : FileSystem) (path : string) :
  ((Delete fs path).1 = [] ∧ (Delete fs path).2 ≠ None)
  ∨ ∃ d src rest item,
      src ∈ view fs false
      ∧ walk false (ds src) rest = Some item
      ∧ asDir item = Some d
      ∧ is_Some (Dir_Child d (trimLastPath path).2 0)
      ∧ Delete fs path
        = ([CallDelete d (trimLastPath path).2],
           wrapError (Dir_Delete d (trimLastPath path).2) path).
Proof.
  unfold Delete. destruct (trimLastPath path) as [npath last]. simpl.
  pose proof (GetDSsAt_from_view fs npath false false) as Hfrom.
  destruct (GetDSsAt fs npath false false) as [dss [e|]]; simpl in *; [by left|].
  destruct (Delete_loop_cases path last dss) as [-> | (item & d & Hi & Hd & Hc & ->)];
    [by left|].
  right. destruct (Hfrom item Hi) as (src & rest & Hsrc & Hw).
  by exists d, src, rest, item.
Qed.

(** X25. With nothing mounted for writing, nothing can be changed: on a
    valid path Write, Append and WriteAll fail with ErrNotFound, and Delete
    fails with ErrNotFound (for the parent path) without calling any
    backend. *)
Theorem nothing_writable (fs : FileSystem) (path : string) (dirs : list string) :
  view fs false = [] →
  validatePath path = Some dirs →
  let notFound := Some (mkError path ErrNotFound None) in
  Write fs path = Returns (None, notFound)
  ∧ Append fs path = Returns (None, notFound)
  ∧ (∀ content, WriteAll fs path content = Returns notFound)
  ∧ Delete fs path = ([], Some (mkError (trimLastPath path).1 ErrNotFound None)).
Proof.
  intros Hw Hv notFound.
  assert (Hres : ∀ q qd create, validatePath q = Some qd →
            GetDSsAt fs q create false = ([], Some (mkError q ErrNotFound None))).
  { intros q qd create Hq. rewrite (GetDSsAt_unfold _ _ _ _ _ Hq), Hw. done. }
  unfold WriteAll, Write, Append, openForWriting, GetDSAt.
  rewrite (Hres path dirs true Hv). simpl.
  repeat split.
  destruct (validatePath_lastSlash path dirs Hv) as (pdirs & Hp & _).
  unfold Delete. destruct (trimLastPath path) as [npath last]. simpl in *.
  by rewrite (Hres npath pdirs false Hp).
Qed.

Lemma nothing_writable_witness :
  Write fsMixed "a/x" = Returns (None, Some (mkError "a/x" ErrNotFound None))
  ∧ Append fsMixed "a/x" = Returns (None, Some (mkError "a/x" ErrNotFound None))
  ∧ (∀ content, WriteAll fsMixed "a/x" content
                = Returns (Some (mkError "a/x" ErrNotFound None)))
  ∧ Delete fsMixed "a/x"
    = ([], Some (mkError (trimLastPath "a/x").1 ErrNotFound None)).
Proof.
  apply (nothing_writable fsMixed "a/x" ["a"; "x"]).
  - vm_compute; reflexivity.
  - vm_compute; reflexivity.
Defined.

Lemma lastSlash_app (n last : string) :
  slash ∉ list_ascii_of_string last →
  lastSlash (n +:+ String slash last) = Some (n, last).
Proof.
  intros Hl. apply lastSlash_None in Hl.
  induction n as [|c n IH]; simpl; [by rewrite Hl | by rewrite IH].
Qed.

(** X26. Delete does not validate the final segment.  Whatever follows the
    last slash, also a name that makes the whole path invalid such as
    [".."], is handed to the backend as it is when the parent resolves to a
    Dir that answers for it. *)
Theorem Delete_skips_validation (fs : FileSystem) (npath last : string)
    (item : DataSource) (dss : list DataSource) (d : Dir DataSource) :
  slash ∉ list_ascii_of_string last →
  GetDSsAt fs npath false false = (item :: dss, None) →
  asDir item = Some d →
  is_Some (Dir_Child d last 0) →
  Delete fs (npath +:+ String slash last)
  = ([CallDelete d last],
     wrapError (Dir_Delete d last) (npath +:+ String slash last)).
Proof.
  intros Hl Hres Hd Hc. unfold Delete.
  rewrite trimLastPath_lastSlash, (lastSlash_app npath last Hl), Hres.
  simpl. rewrite Hd. by rewrite bool_decide_true.
Qed.

Lemma Delete_skips_validation_witness :
  validatePath ("m" +:+ String slash "..") = None
  ∧ Delete fsDots ("m" +:+ String slash "..")
    = ([CallDelete (wdirOps [("..", zfile 0); ("f", zfile 1)]) ".."],
       wrapError (Dir_Delete (wdirOps [("..", zfile 0); ("f", zfile 1)]) "..")
         ("m" +:+ String slash "..")).
Proof.
  split; [vm_compute; reflexivity|].
  apply (Delete_skips_validation fsDots "m" ".."
           (wdir [("..", zfile 0); ("f", zfile 1)]) []).
  - vm_compute. intros Hin. repeat (apply elem_of_cons in Hin as [[=]|Hin]).
    by apply elem_of_nil in Hin.
  - vm_compute; reflexivity.
  - reflexivity.
  - simpl. eauto.
Defined.

(** ** The zip tree *)

Lemma znodeDS_dir (items : gmap string znode) :
  asDir (znodeDS (zdirNode items))
  = Some {| Dir_Child := λ id _, (znodeDS <$> items) !! id;
            Dir_Delete := λ _, Some (NewError ErrReadOnly);
            Dir_List := (map_to_list items).*1 |}.
Proof. reflexivity. Qed.

Lemma walk_znodeDS (create : bool) (n : znode) (parts : list string) :
  walk create (znodeDS n) parts = znodeDS <$> zfind parts n.
Proof.
  revert n. induction parts as [|p rest IH]; intros n; [done|].
  destruct n as [me|items]; [done|].
  cbn [walk zfind]. rewrite znodeDS_dir. cbn [Dir_Child].
  rewrite lookup_fmap. destruct (items !! p) as [child|]; simpl; [apply IH | done].
Qed.

Lemma place_below (parts r : list string) (leaf : znode)
    (items items' : gmap string znode) :
  place parts leaf items = Returns items' →
  zfind (parts ++ r) (zdirNode items') = zfind r leaf.
Proof.
  revert items items'. induction parts as [|p rest IH]; intros items items'; [done|].
  cbn [place]. destruct rest as [|p2 rest2].
  - intros [= <-]. simpl. by rewrite lookup_insert_eq.
  - destruct (items !! p) as [[me|sub]|].
    + done.
    + destruct (place (p2 :: rest2) leaf sub) as [sub'|] eqn:Hsub; [|done].
      intros [= <-]. change (zfind ((p :: p2 :: rest2) ++ r) ?t)
        with (zfind (p :: (p2 :: rest2) ++ r) t).
      cbn [zfind]. rewrite lookup_insert_eq. simpl. by apply (IH sub).
    + destruct (place (p2 :: rest2) leaf ∅) as [sub'|] eqn:Hsub; [|done].
      intros [= <-]. change (zfind ((p :: p2 :: rest2) ++ r) ?t)
        with (zfind (p :: (p2 :: rest2) ++ r) t).
      cbn [zfind]. rewrite lookup_insert_eq. simpl. by apply (IH ∅).
Qed.

Lemma place_above (q r : list string) (leaf : znode)
    (items items' : gmap string znode) :
  r ≠ [] →
  place (q ++ r) leaf items = Returns items' →
  ∃ sub, zfind q (zdirNode items') = Some (zdirNode sub).
Proof.
  intros Hr. revert items items'.
  induction q as [|a q IH]; intros items items' Hpl; [by eexists|].
  change ((a :: q) ++ r) with (a :: (q ++ r)) in Hpl. cbn [place] in Hpl.
  destruct (q ++ r) as [|p2 rest2] eqn:Hqr; [by destruct q|].
  rewrite <-Hqr in *.
  destruct (items !! a) as [[me|sub]|]; [done | |].
  - destruct (place (q ++ r) leaf sub) as [sub'|] eqn:Hsub; [|done].
    injection Hpl as <-. cbn [zfind]. rewrite lookup_insert_eq. simpl.
    by apply (IH sub).
  - destruct (place (q ++ r) leaf ∅) as [sub'|] eqn:Hsub; [|done].
    injection Hpl as <-. cbn [zfind]. rewrite lookup_insert_eq. simpl.
    by apply (IH ∅).
Qed.

Lemma place_other (parts q : list string) (leaf : znode)
    (items items' : gmap string znode) :
  place parts leaf items = Returns items' →
  ¬ parts `prefix_of` q → ¬ q `prefix_of` parts →
  zfind q (zdirNode items') = zfind q (zdirNode items).
Proof.
  revert q items items'.
  induction parts as [|p rest IH]; intros q items items' Hpl Hpq Hqp; [done|].
  destruct q as [|a q]; [exfalso; apply Hqp, prefix_nil|].
  cbn [place] in Hpl. cbn [zfind].
  destruct (decide (a = p)) as [->|Hne].
  - assert (Hrq : ¬ rest `prefix_of` q) by (intros H; by apply Hpq, prefix_cons).
    assert (Hqr : ¬ q `prefix_of` rest) by (intros H; by apply Hqp, prefix_cons).
    destruct rest as [|p2 rest2]; [exfalso; apply Hrq, prefix_nil|].
    destruct (items !! p) as [[me|sub]|] eqn:Hp; [done | |].
    + destruct (place (p2 :: rest2) leaf sub) as [sub'|] eqn:Hsub; [|done].
      injection Hpl as <-. rewrite lookup_insert_eq. simpl. by apply (IH q sub).
    + destruct (place (p2 :: rest2) leaf ∅) as [sub'|] eqn:Hsub; [|done].
      injection Hpl as <-. rewrite lookup_insert_eq. simpl.
      rewrite (IH q ∅ sub') by done.
      destruct q as [|b q]; [exfalso; apply Hqr, prefix_nil|]. done.
  - assert (Hins : ∀ v, (<[p:=v]> items) !! a = items !! a)
      by (intros v; by rewrite lookup_insert_ne).
    destruct rest as [|p2 rest2]; [injection Hpl as <-; by rewrite Hins|].
    destruct (items !! p) as [[me|sub]|]; [done | |].
    + destruct (place (p2 :: rest2) leaf sub) as [sub'|]; [|done].
      injection Hpl as <-. by rewrite Hins.
    + destruct (place (p2 :: rest2) leaf ∅) as [sub'|]; [|done].
      injection Hpl as <-. by rewrite Hins.
Qed.

Lemma place_total (parts : list string) (leaf : znode) (items : gmap string znode) :
  parts ≠ [] →
  (∀ q r me, parts = q ++ r → r ≠ [] →
             zfind q (zdirNode items) ≠ Some (zfileNode me)) →
  ∃ items', place parts leaf items = Returns items'.
Proof.
  revert items. induction parts as [|p rest IH]; intros items Hne Hfree; [done|].
  cbn [place]. destruct rest as [|p2 rest2]; [by eexists|].
  assert (Hsub : ∀ sub, items !! p = Some (zdirNode sub) ∨ (items !! p = None ∧ sub = ∅) →
            ∃ sub', place (p2 :: rest2) leaf sub = Returns sub').
  { intros sub Hp. apply IH; [done|]. intros q r me Heq Hr Hq.
    destruct Hp as [Hp | [Hp ->]].
    - apply (Hfree (p :: q) r me); [by rewrite Heq | done |].
      cbn [zfind]. by rewrite Hp.
    - destruct q as [|b q]; [done|]. cbn [zfind] in Hq.
      by rewrite lookup_empty in Hq. }
  destruct (items !! p) as [[me|sub]|] eqn:Hp.
  - exfalso. apply (Hfree [p] (p2 :: rest2) me); [done | done |].
    cbn [zfind]. by rewrite Hp.
  - destruct (Hsub sub) as [sub' ->]; [by left | by eexists].
  - destruct (Hsub ∅) as [sub' ->]; [by right | by eexists].
Qed.

(** X27. One turn of [mkTree] is an insertion into the tree: afterwards the
    leaf is found at [parts], every directory above it is a directory, and
    what is neither above nor below [parts] is as it was. *)
Theorem place_is_insertion (parts : list string) (leaf : znode)
    (items items' : gmap string znode) :
  place parts leaf items = Returns items' →
  zfind parts (zdirNode items') = Some leaf
  ∧ (∀ q r, parts = q ++ r → r ≠ [] →
            ∃ sub, zfind q (zdirNode items') = Some (zdirNode sub))
  ∧ (∀ q, ¬ parts `prefix_of` q → ¬ q `prefix_of` parts →
          zfind q (zdirNode items') = zfind q (zdirNode items)).
Proof.
  intros Hpl. split; [|split].
  - rewrite <-(app_nil_r parts). by rewrite (place_below _ _ _ _ _ Hpl).
  - intros q r -> Hr. by eapply place_above.
  - intros q. by eapply place_other.
Qed.

Lemma place_is_insertion_witness :
  zfind ["a"; "x.txt"] (zdirNode (<["a" := zdirNode {["x.txt" := zdirNode ∅]}]> ∅))
  = Some (zdirNode ∅).
Proof.
  apply (place_is_insertion ["a"; "x.txt"] (zdirNode ∅) ∅).
  reflexivity.
Defined.

Lemma zfind_empty (q : list string) (n : znode) :
  zfind q (zdirNode ∅) = Some n → q = [] ∧ n = zdirNode ∅.
Proof.
  destruct q as [|a q]; simpl; [by intros [= <-]|]. by rewrite lookup_empty.
Qed.

Lemma zfind_leaf (file : zipFile) (r : list string) (me : zipFile) :
  zfind r (zleaf file) = Some (zfileNode me) →
  r = [] ∧ me = file ∧ IsDir_ file = false.
Proof.
  unfold zleaf. destruct (IsDir_ file).
  - intros H. by apply zfind_empty in H as [_ [=]].
  - destruct r as [|a r]; simpl; [by intros [= ->] | done].
Qed.

Lemma mkTree_loop_found (files done : list zipFile) (base : gmap string znode) :
  zconsistent files →
  (∀ f, f ∈ done → zfound (zdirNode base) f) →
  (∀ f later, f ∈ done → later ∈ files →
     ¬ zparts later `prefix_of` zparts f
     ∧ (IsDir_ f = false → ¬ zparts f `prefix_of` zparts later)) →
  (∀ q me, zfind q (zdirNode base) = Some (zfileNode me) →
     ∃ f, f ∈ done ∧ zparts f = q ∧ IsDir_ f = false) →
  ∃ items,
    mkTree_loop files base = Returns items
    ∧ ∀ f, f ∈ done ∨ f ∈ files → zfound (zdirNode items) f.
Proof.
  revert done base.
  induction files as [|file rest IH]; intros done base Hcons Hdone Hrel Hfiles.
  - exists base. split; [done|]. intros f [Hf | Hf]; [by apply Hdone|].
    by apply elem_of_nil in Hf.
  - destruct Hcons as [Hhead Hcons]. cbn [mkTree_loop].
    assert (Hne : zparts file ≠ []) by apply Split_not_nil.
    destruct (place_total (zparts file) (zleaf file) base Hne) as [base' Hpl].
    { intros q r me Heq Hr Hq.
      destruct (Hfiles q me Hq) as (f & Hf & Hfq & Hfile).
      destruct (Hrel f file Hf (list_elem_of_here _ _)) as [_ Hnp].
      apply (Hnp Hfile). rewrite Hfq, Heq. by exists r. }
    rewrite Hpl.
    destruct (IH (file :: done) base' Hcons) as (items & Hloop & Hall).
    + intros f [-> | Hf]%elem_of_cons.
      * pose proof (place_below _ [] _ _ _ Hpl) as Hself.
        rewrite app_nil_r in Hself. simpl in Hself.
        unfold zfound, zleaf in *. rewrite Hself.
        destruct (IsDir_ file); [by eexists | done].
      * destruct (Hrel f file Hf (list_elem_of_here _ _)) as [Hlater Hfile].
        specialize (Hdone f Hf). unfold zfound in *.
        destruct (decide (zparts f `prefix_of` zparts file)) as [[r Hr] | Hnot].
        -- destruct (IsDir_ f) eqn:Hd; [|exfalso; apply Hfile; [done | by exists r]].
           assert (r ≠ []) as Hrne.
           { intros ->. rewrite app_nil_r in Hr. apply Hlater. by rewrite Hr. }
           rewrite Hr in Hpl. by eapply place_above.
        -- by rewrite (place_other _ _ _ _ _ Hpl).
    + intros f later [-> | Hf]%elem_of_cons Hlater.
      * by apply Hhead.
      * apply Hrel; [done | by right].
    + intros q me Hq.
      destruct (decide (zparts file `prefix_of` q)) as [[r ->] | Hnot].
      * rewrite (place_below _ _ _ _ _ Hpl) in Hq.
        apply zfind_leaf in Hq as (-> & -> & Hfile).
        exists file. rewrite app_nil_r. split; [by left | done].
      * destruct (decide (q `prefix_of` zparts file)) as [[r Hr] | Hnot'].
        -- assert (r ≠ []) as Hrne.
           { intros ->. rewrite app_nil_r in Hr. apply Hnot. by rewrite Hr. }
           rewrite Hr in Hpl.
           destruct (place_above _ _ _ _ _ Hrne Hpl) as [sub Hsub]. congruence.
        -- rewrite (place_other _ _ _ _ _ Hpl) in Hq by done.
           destruct (Hfiles q me Hq) as (f & Hf & ?). exists f. split; [by right | done].
    + exists items. split; [done|]. intros f [Hf | [-> | Hf]%elem_of_cons].
      * apply Hall. left. by right.
      * apply Hall. left. by left.
      * apply Hall. by right.
Qed.

(** X28. [mkTree] takes in a consistent archive whole: it does not panic,
    and walking the name of any of its entries from the root of the data
    source reaches that file entry's own file, or a directory for a
    directory entry. *)
Theorem mkTree_finds_entries (files : list zipFile) :
  zconsistent files →
  ∃ tree,
    mkTree files = Returns tree
    ∧ ∀ file create, file ∈ files →
        ∃ item, walk create (znodeDS tree) (zparts file) = Some item
                ∧ if IsDir_ file then is_Some (asDir item)
                  else item = znodeDS (zfileNode file).
Proof.
  intros Hcons.
  destruct (mkTree_loop_found files [] ∅ Hcons) as (items & Hloop & Hall).
  - by intros f ?%elem_of_nil.
  - by intros f later ?%elem_of_nil.
  - intros q me Hq. by apply zfind_empty in Hq as [_ [=]].
  - exists (zdirNode items). unfold mkTree. rewrite Hloop. split; [done|].
    intros file create Hfile. rewrite walk_znodeDS.
    specialize (Hall file (or_intror Hfile)). unfold zfound in Hall.
    destruct (IsDir_ file).
    + destruct Hall as [sub ->]. eexists. split; [done|]. rewrite znodeDS_dir. eauto.
    + rewrite Hall. by eexists.
Qed.

Ltac not_prefix := intros [? Hk]; vm_compute in Hk; discriminate Hk.

Ltac later_entries_ok :=
  intros later Hin;
  repeat (apply elem_of_cons in Hin as [-> | Hin]);
  try (by apply elem_of_nil in Hin);
  (split; [not_prefix | intros Hfile; first [discriminate Hfile | not_prefix]]).

Lemma mkTree_finds_entries_witness :
  ∃ tree,
    mkTree exampleZip = Returns tree
    ∧ ∀ file create, file ∈ exampleZip →
        ∃ item, walk create (znodeDS tree) (zparts file) = Some item
                ∧ if IsDir_ file then is_Some (asDir item)
                  else item = znodeDS (zfileNode file).
Proof.
  apply (mkTree_finds_entries exampleZip).
  unfold exampleZip. cbn [zconsistent].
  repeat apply conj; try exact I; later_entries_ok.
Defined.

(** The tree of the example archive mounted read-only at [base], as in the
    example test of the repository. *)
Example zip_example :
  ∃ tree,
    mkTree exampleZip = Returns tree
    ∧ let fs := (Mount zeroFS "base" (znodeDS tree) false).1 in
      ListDirs fs "" = ["base"]
      ∧ ListDirs fs "base" = ["a"]
      ∧ ListFiles fs "base/a" ≡ₚ ["x.txt"; "y.txt"; "z.txt"]
      ∧ ListFiles fs "base" ≡ₚ ["b.txt"; "c.txt"]
      ∧ Size fs "base/a/y.txt" = Returns 5
      ∧ (∃ rc, Read fs "base/a/y.txt" = Returns (Some rc, None))
      ∧ ReadAll fs "base/a/y.txt" = Returns (list_byte_of_string "y.txt", None)
      ∧ Read fs "base/a/m.txt"
        = Returns (None, Some (mkError "base/a/m.txt" ErrNotFound None))
      ∧ Write fs "base/a/y.txt"
        = Returns (None, Some (mkError "base/a/y.txt" ErrNotFound None)).
Proof.
  eexists. split; [vm_compute; reflexivity|]. cbv zeta.
  repeat split; try (vm_compute; reflexivity).
  - vm_compute. eauto using Permutation.
  - vm_compute. eauto using Permutation.
  - vm_compute. eauto.
Qed.

(** X29. A zip directory lists exactly the names it has children for, each
    once, and its [Child] does not look at the creation hint. *)
Theorem zdir_List_Child (items : gmap string znode) (d : Dir DataSource) :
  asDir (znodeDS (zdirNode items)) = Some d →
  NoDup (Dir_List d)
  ∧ (∀ id create, id ∈ Dir_List d ↔ is_Some (Dir_Child d id create))
  ∧ (∀ id create, Dir_Child d id create = znodeDS <$> items !! id).
Proof.
  rewrite znodeDS_dir. intros [= <-]. cbn [Dir_List Dir_Child].
  split; [apply NoDup_fst_map_to_list|].
  split; [|intros id _; apply lookup_fmap].
  intros id _. rewrite lookup_fmap, fmap_is_Some, list_elem_of_fmap. split.
  - intros ([k v] & -> & Hkv). apply elem_of_map_to_list in Hkv. by exists v.
  - intros [v Hv]. exists (id, v). split; [done|]. by apply elem_of_map_to_list.
Qed.

Lemma zdir_List_Child_witness :
  NoDup (Dir_List (zdirOpsOf {["x" := zdirNode ∅]}))
  ∧ (∀ id create, id ∈ Dir_List (zdirOpsOf {["x" := zdirNode ∅]})
                  ↔ is_Some (Dir_Child (zdirOpsOf {["x" := zdirNode ∅]}) id create))
  ∧ (∀ id create, Dir_Child (zdirOpsOf {["x" := zdirNode ∅]}) id create
                  = znodeDS <$> ({["x" := zdirNode ∅]} : gmap string znode) !! id).
Proof.
  apply (zdir_List_Child {["x" := zdirNode ∅]}). reflexivity.
Defined.

(** X30. What comes from a zip archive cannot be changed through the file
    system: Write and Append on a zip file, and Delete of a child of a zip
    directory, fail with ErrReadOnly (not ErrRaw) carrying the facade path. *)
Theorem zip_is_read_only (fs : FileSystem) (path : string) :
  let readOnly := Some (mkError path ErrReadOnly None) in
  (∀ me, GetDSAt fs path true false = Returns (Some (znodeDS (zfileNode me)), None) →
         Write fs path = Returns (None, readOnly)
         ∧ Append fs path = Returns (None, readOnly)
         ∧ ∀ content, WriteAll fs path content = Returns readOnly)
  ∧ (∀ items dss child,
       GetDSsAt fs (trimLastPath path).1 false false
         = (znodeDS (zdirNode items) :: dss, None) →
       items !! (trimLastPath path).2 = Some child →
       (Delete fs path).2 = readOnly).
Proof.
  intros readOnly. split.
  - intros me Hget. unfold WriteAll, Write, Append, openForWriting.
    rewrite Hget. simpl. done.
  - intros items dss child Hres Hchild. unfold Delete.
    destruct (trimLastPath path) as [npath last]. simpl in *.
    rewrite Hres. cbn [Delete_loop asDir Dir_Child Dir_Delete].
    rewrite lookup_fmap, Hchild. done.
Qed.
